(** * Command extraction of voc (voc/python/utils.py)

    A shallow embedding of [Command] and [extract_command], the backward,
    stack-balance driven reconstruction of command trees from a linear
    list of bytecode instructions, followed by the properties of the
    reconstruction. *)

From Stdlib Require Import ZArith List String Bool Lia DecimalString
  Permutation.
Import ListNotations.
Open Scope string_scope.
Open Scope list_scope.
Open Scope Z_scope.
Set Warnings "-register-all".

(** ** Python values, exceptions and results *)

(** The attribute [argval] of an instruction holds an arbitrary Python
    object: an integer for raw operands, a string for names, [None] when
    the instruction has no operand. *)
Inductive value : Type :=
| VNone
| VInt (n : Z)
| VStr (s : string).

(** The exceptions the function can raise. *)
Inductive exn : Type :=
| IndexError
| AttributeError (name : string)
| TypeError.

(** A computation returns, raises, or (for the fuelled definitions only)
    runs out of fuel. *)
Inductive outcome (A : Type) : Type :=
| Ok (a : A)
| Raise (e : exn)
| OutOfFuel.

Arguments Ok {A} a.
Arguments Raise {A} e.
Arguments OutOfFuel {A}.

Definition bind {A B : Type} (m : outcome A) (k : A -> outcome B) : outcome B :=
  match m with
  | Ok a => k a
  | Raise e => Raise e
  | OutOfFuel => OutOfFuel
  end.

Notation "x <- m ;; k" := (bind m (fun x => k))
  (at level 61, m at next level, right associativity).
Notation "' p <- m ;; k" := (bind m (fun x => let p := x in k))
  (at level 61, p pattern, m at next level, right associativity).

(** [l[i]] on a Python list: a negative index counts from the end, an
    index outside [-len l, len l) raises [IndexError]. *)
Definition getitem {A : Type} (l : list A) (i : Z) : outcome A :=
  let n := Z.of_nat (List.length l) in
  let k := if i <? 0 then i + n else i in
  if (k <? 0) || (n <=? k) then Raise IndexError
  else match nth_error l (Z.to_nat k) with
       | Some x => Ok x
       | None => Raise IndexError
       end.

(** [a | b]: defined on integers, a [TypeError] on the other values of
    the model. *)
Definition py_or (a b : value) : outcome value :=
  match a, b with
  | VInt x, VInt y => Ok (VInt (Z.lor x y))
  | _, _ => Raise TypeError
  end.

(** [sum] over integers. *)
Definition sum (l : list Z) : Z := fold_left Z.add l 0.

(** ** Data model *)

(** An instruction as [dis] decodes it. *)
Record Instruction : Type := mkInstruction {
  opname : string;
  arg : option Z;
  argval : value;
  ins_offset : Z;
  ins_starts_line : option Z;
  ins_is_jump_target : bool
}.

(** Modelled from the spec: the module [opcodes] is not part of the source.
    An entry of the registry gives the stack effect of an operation, which
    may depend on the argument the operation was built with ([None] for
    [OpType()], [Some v] for [OpType(v)]), and the two block flags, fixed
    per opcode name. *)
Record OpType : Type := mkOpType {
  ot_consume_count : option value -> Z;
  ot_product_count : option value -> Z;
  ot_start_block : bool;
  ot_end_block : bool
}.

(** An opcode object: the registry entry applied to its argument. *)
Record Operation : Type := mkOperation {
  optype : OpType;
  argument : option value
}.

Definition op_consume_count (o : Operation) : Z :=
  ot_consume_count (optype o) (argument o).
Definition op_product_count (o : Operation) : Z :=
  ot_product_count (optype o) (argument o).
Definition start_block (o : Operation) : bool := ot_start_block (optype o).
Definition end_block (o : Operation) : bool := ot_end_block (optype o).

(** class Command *)
Inductive Command : Type :=
  mkCommand (operation : Operation) (offset : Z) (starts_line : option Z)
            (is_jump_target : bool) (arguments : list Command).

Definition operation (c : Command) : Operation :=
  match c with mkCommand o _ _ _ _ => o end.
Definition offset (c : Command) : Z :=
  match c with mkCommand _ n _ _ _ => n end.
Definition starts_line (c : Command) : option Z :=
  match c with mkCommand _ _ l _ _ => l end.
Definition is_jump_target (c : Command) : bool :=
  match c with mkCommand _ _ _ b _ => b end.
Definition arguments (c : Command) : list Command :=
  match c with mkCommand _ _ _ _ a => a end.

(** [Command.__init__]: the argument list starts empty. *)
Definition Command_init (instruction : Operation) (off : Z)
    (line : option Z) (jump : bool) : Command :=
  mkCommand instruction off line jump [].

(** The effect of [cmd.arguments.reverse()] once the loop has appended
    [args] to the (empty) list. *)
Definition set_arguments (c : Command) (args : list Command) : Command :=
  mkCommand (operation c) (offset c) (starts_line c) (is_jump_target c) args.

(** [Command.consume_count] and [Command.product_count]. *)
Fixpoint consume_count (c : Command) : Z :=
  match c with
  | mkCommand o _ _ _ args => sum (map consume_count args) + op_consume_count o
  end.

Fixpoint product_count (c : Command) : Z :=
  match c with
  | mkCommand o _ _ _ args => sum (map product_count args) + op_product_count o
  end.

(** ** extract_command *)

Section Builder.

(** The registry: [getattr(opcodes, name)]. *)
Variable opcodes : string -> option OpType.

Definition getattr (name : string) : outcome OpType :=
  match opcodes name with
  | Some t => Ok t
  | None => Raise (AttributeError name)
  end.

(** Lines 77 to 80: [OpType()] when the instruction has no operand,
    [OpType(argval)] otherwise. *)
Definition make_opcode (OpType : OpType) (instruction : Instruction)
    (argval : value) : Operation :=
  match arg instruction with
  | None => mkOperation OpType None
  | Some _ => mkOperation OpType (Some argval)
  end.

(** Lines 63 to 80: the instruction before the cursor, its operation, and
    the index left after an EXTENDED_ARG has been merged. *)
Definition resolve_operation (instructions : list Instruction) (i : Z)
  : outcome (Z * Instruction * Operation) :=
  let i := i - 1 in
  instruction <- getitem instructions i ;;
  let argval0 := argval instruction in
  OpType <- getattr (opname instruction) ;;
  '(i, argval1) <-
     (if 0 <? i then
        prev <- getitem instructions (i - 1) ;;
        if (opname prev =? "EXTENDED_ARG")%string then
          let i := i - 1 in
          extended <- getitem instructions i ;;
          merged <- py_or argval0 (argval extended) ;;
          Ok (i, merged)
        else Ok (i, argval0)
      else Ok (i, argval0)) ;;
  Ok (i, instruction, make_opcode OpType instruction argval1).

(** The function and its two [while] loops, by recursion on a fuel counter
    that bounds the depth of the calls.  The arguments a loop appends to
    [cmd.arguments] are threaded through it as [args].  The recursion limit
    of the interpreter is not modelled. *)
Fixpoint extract_fuel (fuel : nat) (instructions : list Instruction) (i : Z)
    {struct fuel} : outcome (Z * Command) :=
  match fuel with
  | O => OutOfFuel
  | S fuel =>
      '(i, instruction, opcode) <- resolve_operation instructions i ;;
      let cmd := Command_init opcode (ins_offset instruction)
                   (ins_starts_line instruction)
                   (ins_is_jump_target instruction) in
      if end_block opcode then
        '(i, args) <- block_loop_fuel fuel instructions i [] ;;
        Ok (i, set_arguments cmd (rev args))
      else if start_block opcode then
        Ok (i, cmd)
      else
        let stack := op_consume_count (operation cmd) in
        '(i, args) <- stack_loop_fuel fuel instructions i stack [] ;;
        Ok (i, set_arguments cmd (rev args))
  end

(** [while not found_start] *)
with block_loop_fuel (fuel : nat) (instructions : list Instruction) (i : Z)
    (args : list Command) {struct fuel} : outcome (Z * list Command) :=
  match fuel with
  | O => OutOfFuel
  | S fuel =>
      '(i, arg) <- extract_fuel fuel instructions i ;;
      if start_block (operation arg) then Ok (i, args)
      else block_loop_fuel fuel instructions i (args ++ [arg])
  end

(** [while stack > 0] *)
with stack_loop_fuel (fuel : nat) (instructions : list Instruction) (i : Z)
    (stack : Z) (args : list Command) {struct fuel}
    : outcome (Z * list Command) :=
  match fuel with
  | O => OutOfFuel
  | S fuel =>
      if 0 <? stack then
        '(i, arg) <- extract_fuel fuel instructions i ;;
        stack_loop_fuel fuel instructions i
          (stack + consume_count arg - product_count arg) (args ++ [arg])
      else Ok (i, args)
  end.

(** The distance of a cursor to the lowest index a list accepts. *)
Definition room (instructions : list Instruction) (i : Z) : nat :=
  Z.to_nat (i + Z.of_nat (List.length instructions)).

(** Every call lowers the cursor and a cursor at or below [- len] raises,
    so twice the room of the cursor bounds the depth of the calls. *)
Definition extract_command (instructions : list Instruction) (i : Z)
  : outcome (Z * Command) :=
  extract_fuel (2 * room instructions i + 1) instructions i.

Definition block_loop (instructions : list Instruction) (i : Z)
    (args : list Command) : outcome (Z * list Command) :=
  block_loop_fuel (2 * room instructions i + 2) instructions i args.

Definition stack_loop (instructions : list Instruction) (i : Z)
    (stack : Z) (args : list Command) : outcome (Z * list Command) :=
  stack_loop_fuel (2 * room instructions i + 2) instructions i stack args.

End Builder.

Arguments extract_command opcodes instructions i : simpl never.
Arguments block_loop opcodes instructions i args : simpl never.
Arguments stack_loop opcodes instructions i stack args : simpl never.

(** ** The running stack balance *)

(** What a gathered command adds to the balance of its consumer:
    [arg.consume_count - arg.product_count]. *)
Definition net (c : Command) : Z := consume_count c - product_count c.

(** The value of [stack] once the commands [gathered] have been pulled
    for the operation [op]. *)
Definition pending (op : Operation) (gathered : list Command) : Z :=
  op_consume_count op + sum (map net gathered).

(** ** A sample registry *)

(** An entry whose stack effect does not depend on the argument. *)
Definition fixed (consume product : Z) (opens closes : bool) : OpType :=
  mkOpType (fun _ => consume) (fun _ => product) opens closes.

(** Modelled from the spec: the registry [opcodes] is not part of the
    source.  The entries below follow the examples of the spec: loads that
    consume nothing and produce one value, a binary operation that consumes
    two values and produces one, an operation that consumes one value, a
    duplication that produces two values for one consumed, and a pair of
    block markers. *)
Definition sample_table : list (string * OpType) :=
  [ ("LOAD_CONST", fixed 0 1 false false);
    ("LOAD_FAST", fixed 0 1 false false);
    ("BINARY_ADD", fixed 2 1 false false);
    ("POP_TOP", fixed 1 0 false false);
    ("DUP_TOP", fixed 1 2 false false);
    ("SETUP_LOOP", fixed 0 0 true false);
    ("POP_BLOCK", fixed 0 0 false true) ].

Fixpoint lookup (table : list (string * OpType)) (name : string)
  : option OpType :=
  match table with
  | [] => None
  | (n, t) :: rest => if (n =? name)%string then Some t else lookup rest name
  end.

Definition sample_opcodes : string -> option OpType := lookup sample_table.

(** An instruction without operand, and one with an integer operand. *)
Definition plain (name : string) (off : Z) : Instruction :=
  mkInstruction name None VNone off None false.

Definition with_arg (name : string) (n : Z) (off : Z) : Instruction :=
  mkInstruction name (Some n) (VInt n) off None false.

(** ** Sample instruction lists *)

(** A load, a duplication of the loaded value, and a consumer of one
    value. *)
Definition dup_run : list Instruction :=
  [with_arg "LOAD_CONST" 1 0; plain "DUP_TOP" 3; plain "POP_TOP" 4].

(** A high-bits instruction of value 1 before a load of raw value 44. *)
Definition extended_run : list Instruction :=
  [with_arg "EXTENDED_ARG" 1 0; with_arg "LOAD_FAST" 44 3].

(** Two high-bits instructions in a row before the load. *)
Definition stacked_run : list Instruction :=
  [with_arg "EXTENDED_ARG" 2 0; with_arg "EXTENDED_ARG" 1 3;
   with_arg "LOAD_FAST" 44 6].

(** A binary operation as the very first instruction, followed by two
    loads. *)
Definition underflow_run : list Instruction :=
  [plain "BINARY_ADD" 0; with_arg "LOAD_CONST" 1 1; with_arg "LOAD_CONST" 2 4].

(** Two loads feeding a binary operation. *)
Definition add_run : list Instruction :=
  [with_arg "LOAD_CONST" 1 0; with_arg "LOAD_CONST" 2 3; plain "BINARY_ADD" 6].

(** A block: its opening marker, two loads, its closing marker. *)
Definition block_run : list Instruction :=
  [with_arg "SETUP_LOOP" 9 0; with_arg "LOAD_CONST" 1 3;
   with_arg "LOAD_CONST" 2 6; plain "POP_BLOCK" 9].

(** A binary operation with one load before it and one load after it. *)
Definition wrap_run : list Instruction :=
  [with_arg "LOAD_CONST" 1 0; plain "BINARY_ADD" 3; with_arg "LOAD_CONST" 2 4].

(** Two top-level commands: a load that is popped, then a sum that is
    popped. *)
Definition two_commands : list Instruction :=
  [with_arg "LOAD_CONST" 1 0; plain "POP_TOP" 3;
   with_arg "LOAD_CONST" 1 4; with_arg "LOAD_CONST" 2 7;
   plain "BINARY_ADD" 10; plain "POP_TOP" 11].

(** The commands of the sample lists. *)
Definition load (n off : Z) : Command :=
  Command_init (mkOperation (fixed 0 1 false false) (Some (VInt n)))
    off None false.

Definition node (t : OpType) (off : Z) (args : list Command) : Command :=
  mkCommand (mkOperation t None) off None false args.

(** A high-bits instruction before a load whose [argval] is the constant
    it loads, a string. *)
Definition symbolic_run : list Instruction :=
  [with_arg "EXTENDED_ARG" 1 0;
   mkInstruction "LOAD_CONST" (Some 65536) (VStr "spam") 3 None false].

(** The command of [add_run], and that of [dup_run]. *)
Definition add_command : Command :=
  node (fixed 2 1 false false) 6 [load 1 0; load 2 3].

Definition dup_command : Command :=
  node (fixed 1 0 false false) 4 [node (fixed 1 2 false false) 3 [load 1 0]].


(** ** Order of the offsets *)

(** A list of offsets that increases strictly. *)
Fixpoint increasing (l : list Z) : bool :=
  match l with
  | [] => true
  | x :: r =>
      match r with
      | [] => true
      | y :: _ => (x <? y) && increasing r
      end
  end.

(** At every node of the tree the offsets of the arguments increase and
    stay below the offset of the node. *)
Fixpoint ordered (c : Command) : bool :=
  match c with
  | mkCommand _ off _ _ args =>
      increasing (map offset args)
      && forallb (fun a => offset a <? off) args
      && forallb ordered args
  end.

(** The offsets of all the nodes of a tree. *)
Fixpoint tree_offsets (c : Command) : list Z :=
  match c with
  | mkCommand _ off _ _ args => off :: flat_map tree_offsets args
  end.

(** [o] is the offset of an instruction at an index of [lo, hi). *)
Definition within (instructions : list Instruction) (lo hi : Z) (o : Z)
  : Prop :=
  exists k ins, lo <= k < hi /\ getitem instructions k = Ok ins /\
                o = ins_offset ins.

(** What a loop has pulled between the cursors [i] and [j]: commands made
    of instructions of [j, i), ordered, with decreasing offsets. *)
Definition gathered_ok (instructions : list Instruction) (j i : Z)
    (new : list Command) : Prop :=
  (forall c, In c new ->
     forall o, In o (tree_offsets c) -> within instructions j i o) /\
  increasing (map offset (rev new)) = true /\
  forallb ordered new = true.

(** ** The top-level driver *)

Section Driver.

Variable opcodes : string -> option OpType.

(** Modelled from the spec: the driver is not part of the source.  It
    invokes [extract_command] from [cursor = len(instructions)], collects
    each returned command, until [cursor == 0], and produces the commands
    in forward order, the reverse of the order of collection.  The cursor
    it stopped at is returned with them. *)
Fixpoint driver_fuel (fuel : nat) (instructions : list Instruction)
    (cursor : Z) (collected : list Command) : outcome (Z * list Command) :=
  match fuel with
  | O => OutOfFuel
  | S fuel =>
      if cursor =? 0 then Ok (cursor, rev collected)
      else
        '(cursor, cmd) <- extract_command opcodes instructions cursor ;;
        driver_fuel fuel instructions cursor (collected ++ [cmd])
  end.

Definition driver (instructions : list Instruction)
  : outcome (Z * list Command) :=
  let n := Z.of_nat (List.length instructions) in
  driver_fuel (room instructions n + 1) instructions n [].

End Driver.

(** ** Well-formed instruction sequences *)

Section Grammar.

Variable opcodes : string -> option OpType.

Definition is_extended (ins : Instruction) : bool :=
  (opname ins =? "EXTENDED_ARG")%string.

(** The list does not end with an EXTENDED_ARG. *)
Definition clean (pre : list Instruction) : bool :=
  match rev pre with
  | [] => true
  | x :: _ => negb (is_extended x)
  end.

(** The list ends with an instruction that is no EXTENDED_ARG. *)
Definition ends_plain (seg : list Instruction) : Prop :=
  exists front ins, seg = front ++ [ins] /\ is_extended ins = false.

(** The instructions of one operation: the instruction alone, or the
    instruction after the EXTENDED_ARG that is merged into it. *)
Inductive unit_of : list Instruction -> Instruction -> Operation -> Prop :=
| U_plain (ins : Instruction) (ot : OpType) :
    is_extended ins = false ->
    opcodes (opname ins) = Some ot ->
    unit_of [ins] ins (make_opcode ot ins (argval ins))
| U_extended (ext ins : Instruction) (ot : OpType) (lo hi : Z) :
    is_extended ext = true ->
    is_extended ins = false ->
    opcodes (opname ins) = Some ot ->
    argval ins = VInt lo ->
    argval ext = VInt hi ->
    unit_of [ext; ins] ins (make_opcode ot ins (VInt (Z.lor lo hi))).

(** [parses seg cmd]: the instructions [seg] are those of one command,
    [cmd], whose operation stands last.  The two other relations describe
    what stands before the operation, with the commands in the order the
    loops pull them, last one first: the body of a block back to its
    opening marker, and the operands that bring a balance to zero or
    below. *)
Inductive parses : list Instruction -> Command -> Prop :=
| P_open (seg : list Instruction) (ins : Instruction) (op : Operation) :
    unit_of seg ins op ->
    end_block op = false ->
    start_block op = true ->
    parses seg
      (Command_init op (ins_offset ins) (ins_starts_line ins)
         (ins_is_jump_target ins))
| P_close (body seg : list Instruction) (ins : Instruction) (op : Operation)
    (args : list Command) :
    unit_of seg ins op ->
    end_block op = true ->
    block_body body args ->
    parses (body ++ seg)
      (set_arguments
         (Command_init op (ins_offset ins) (ins_starts_line ins)
            (ins_is_jump_target ins)) (rev args))
| P_plain (operands seg : list Instruction) (ins : Instruction)
    (op : Operation) (args : list Command) :
    unit_of seg ins op ->
    end_block op = false ->
    start_block op = false ->
    operands_of (op_consume_count op) operands args ->
    parses (operands ++ seg)
      (set_arguments
         (Command_init op (ins_offset ins) (ins_starts_line ins)
            (ins_is_jump_target ins)) (rev args))

with block_body : list Instruction -> list Command -> Prop :=
| B_start (seg : list Instruction) (c : Command) :
    parses seg c ->
    start_block (operation c) = true ->
    block_body seg []
| B_more (rest seg : list Instruction) (c : Command) (args : list Command) :
    parses seg c ->
    start_block (operation c) = false ->
    block_body rest args ->
    block_body (rest ++ seg) (c :: args)

with operands_of : Z -> list Instruction -> list Command -> Prop :=
| O_done (stack : Z) :
    stack <= 0 ->
    operands_of stack [] []
| O_more (stack : Z) (rest seg : list Instruction) (c : Command)
    (args : list Command) :
    0 < stack ->
    parses seg c ->
    operands_of (stack + consume_count c - product_count c) rest args ->
    operands_of stack (rest ++ seg) (c :: args).

Scheme parses_min := Minimality for parses Sort Prop
  with block_body_min := Minimality for block_body Sort Prop
  with operands_of_min := Minimality for operands_of Sort Prop.

Combined Scheme parses_mutual
  from parses_min, block_body_min, operands_of_min.

(** A well-formed sequence: the instructions of its top-level commands,
    one command after the other, in forward order. *)
Inductive commands : list Instruction -> list Command -> Prop :=
| C_nil : commands [] []
| C_snoc (front seg : list Instruction) (cs : list Command) (c : Command) :
    commands front cs ->
    parses seg c ->
    commands (front ++ seg) (cs ++ [c]).

End Grammar.


(** ** The nodes of a command *)

(** The command and all the commands below it. *)
Fixpoint nodes (c : Command) : list Command :=
  match c with
  | mkCommand _ _ _ _ args => c :: flat_map nodes args
  end.

(** [l[j:i]] for indices that are not negative. *)
Definition slice {A : Type} (l : list A) (j i : Z) : list A :=
  firstn (Z.to_nat i - Z.to_nat j) (skipn (Z.to_nat j) l).

(** The node carries the offset, the line and the jump flag of the
    instruction, and an operation built from the registry entry [ot] of
    its opcode name. *)
Definition built_from (ot : OpType) (ins : Instruction) (n : Command)
  : Prop :=
  optype (operation n) = ot /\
  offset n = ins_offset ins /\
  starts_line n = ins_starts_line ins /\
  is_jump_target n = ins_is_jump_target ins /\
  (arg ins = None <-> argument (operation n) = None).

(** ** Command.dump *)

Section Dump.

(** [str(self.operation)]: the opcode classes are not part of the source,
    their text is a parameter. *)
Variable str_operation : Operation -> string.

(** [str(n)] for an integer. *)
Definition str_int (n : Z) : string := NilZero.string_of_int (Z.to_int n).

(** [s * n] *)
Fixpoint repeat_string (s : string) (n : nat) : string :=
  match n with
  | O => ""
  | S n => s ++ repeat_string s n
  end.

(** ["%4s" % s]: the text, padded with spaces on the left to four
    characters. *)
Definition percent_4s (s : string) : string :=
  repeat_string " " (4 - String.length s) ++ s.

(** What [print] writes for one command, without the end of line: its two
    arguments separated by a space. *)
Definition dump_line (c : Command) (depth : nat) : string :=
  ((if is_jump_target c then ">" else " ")
   ++ match starts_line c with
      | Some line => percent_4s (str_int line)
      | None => "    "
      end
   ++ ":" ++ str_int (offset c) ++ " "
   ++ repeat_string "    " depth)
  ++ " " ++ str_operation (operation c).

(** [Command.dump], with the trace of a visit a parameter: the arguments
    first, one level deeper, then the command itself. *)
Fixpoint dump_with {A : Type} (line : Command -> nat -> A) (c : Command)
    (depth : nat) : list A :=
  match c with
  | mkCommand _ _ _ _ args =>
      flat_map (fun op => dump_with line op (depth + 1)) args
      ++ [line c depth]
  end.

(** The lines [dump] prints, in order. *)
Definition dump (c : Command) (depth : nat) : list string :=
  dump_with dump_line c depth.

End Dump.


(** The offsets of the nodes in the order [dump] prints them. *)
Definition printed_offsets (c : Command) : list Z :=
  dump_with (fun n _ => offset n) c 0.






(** ** The calls of a call *)

Section Reach.

Variable opcodes : string -> option OpType.
Variable instructions : list Instruction.

(** [reaches i i']: the execution of the call at cursor [i] makes the
    call at cursor [i'], itself or through the loops of the calls in
    between.  A loop calls at its cursor, and, when that call returns a
    command that lets the loop go on, at the cursor it returned. *)
Inductive reaches : Z -> Z -> Prop :=
| R_self (i : Z) : reaches i i
| R_block (i k i' : Z) (ins : Instruction) (op : Operation) :
    resolve_operation opcodes instructions i = Ok (k, ins, op) ->
    end_block op = true ->
    block_reaches k i' ->
    reaches i i'
| R_stack (i k i' : Z) (ins : Instruction) (op : Operation) :
    resolve_operation opcodes instructions i = Ok (k, ins, op) ->
    end_block op = false ->
    start_block op = false ->
    stack_reaches (op_consume_count op) k i' ->
    reaches i i'

with block_reaches : Z -> Z -> Prop :=
| BR_call (k i' : Z) :
    reaches k i' ->
    block_reaches k i'
| BR_next (k k1 i' : Z) (a : Command) :
    extract_command opcodes instructions k = Ok (k1, a) ->
    start_block (operation a) = false ->
    block_reaches k1 i' ->
    block_reaches k i'

with stack_reaches : Z -> Z -> Z -> Prop :=
| SR_call (stack k i' : Z) :
    0 < stack ->
    reaches k i' ->
    stack_reaches stack k i'
| SR_next (stack k k1 i' : Z) (a : Command) :
    0 < stack ->
    extract_command opcodes instructions k = Ok (k1, a) ->
    stack_reaches (stack + consume_count a - product_count a) k1 i' ->
    stack_reaches stack k i'.

Scheme reaches_min := Minimality for reaches Sort Prop
  with block_reaches_min := Minimality for block_reaches Sort Prop
  with stack_reaches_min := Minimality for stack_reaches Sort Prop.

Combined Scheme reaches_mutual
  from reaches_min, block_reaches_min, stack_reaches_min.

(** The cursors at which the driver calls: the length of the list when
    it is not 0, then each cursor a call returned that is not 0. *)
Inductive driver_calls : Z -> Prop :=
| D_first :
    Z.of_nat (List.length instructions) <> 0 ->
    driver_calls (Z.of_nat (List.length instructions))
| D_next (c c1 : Z) (cmd : Command) :
    driver_calls c ->
    extract_command opcodes instructions c = Ok (c1, cmd) ->
    c1 <> 0 ->
    driver_calls c1.

End Reach.

(** An instruction of an unknown opcode, a load, a binary operation and
    a consumer of one value. *)
Definition unknown_run : list Instruction :=
  [plain "YIELD_VALUE" 0; with_arg "LOAD_CONST" 1 1; plain "BINARY_ADD" 4;
   plain "POP_TOP" 5].

(** A load of a local variable behind a high-bits instruction, as [dis]
    decodes it: [argval] is the name of the variable. *)
Definition named_run : list Instruction :=
  [with_arg "EXTENDED_ARG" 1 0;
   mkInstruction "LOAD_FAST" (Some 65537) (VStr "x") 3 None false].

(** A statement: a constant loaded behind a high-bits instruction, then
    popped. *)
Definition const_program : list Instruction :=
  [with_arg "EXTENDED_ARG" 1 0;
   mkInstruction "LOAD_CONST" (Some 65536) (VStr "spam") 3 None false;
   plain "POP_TOP" 6].


(** ** Elementary facts *)

Lemma bind_Ok {A B : Type} (m : outcome A) (k : A -> outcome B) (b : B) :
  bind m k = Ok b -> exists a, m = Ok a /\ k a = Ok b.
Proof. destruct m; simpl; intros H; try discriminate; eauto. Qed.

Lemma bind_fuel {A B : Type} (m : outcome A) (k : A -> outcome B) :
  bind m k <> OutOfFuel -> m <> OutOfFuel.
Proof. destruct m; simpl; congruence. Qed.

Lemma getitem_Ok {A : Type} (l : list A) (i : Z) (x : A) :
  getitem l i = Ok x ->
  - Z.of_nat (List.length l) <= i < Z.of_nat (List.length l).
Proof.
  unfold getitem. destruct (i <? 0) eqn:Hi;
    destruct (_ || _) eqn:Hb; try discriminate;
    apply orb_false_iff in Hb as [H1 H2]; lia.
Qed.

Lemma getitem_nonneg {A : Type} (l : list A) (i : Z) :
  0 <= i -> getitem l i =
    match nth_error l (Z.to_nat i) with Some x => Ok x | None => Raise IndexError end.
Proof.
  intros Hi. unfold getitem.
  destruct (i <? 0) eqn:E; [lia|].
  destruct (_ || _) eqn:Hb; [|reflexivity].
  destruct (nth_error l (Z.to_nat i)) eqn:Hn; [|reflexivity].
  apply orb_true_iff in Hb as [H|H]; [lia|].
  assert (Z.to_nat i < List.length l)%nat
    by (apply nth_error_Some; congruence). lia.
Qed.

Lemma getitem_out {A : Type} (l : list A) (i : Z) :
  i < - Z.of_nat (List.length l) \/ Z.of_nat (List.length l) <= i ->
  getitem l i = Raise IndexError.
Proof.
  intros H. unfold getitem.
  destruct (i <? 0) eqn:E; destruct (_ || _) eqn:Hb; try reflexivity;
    apply orb_false_iff in Hb as [H1 H2]; lia.
Qed.

Lemma getitem_not_fuel {A : Type} (l : list A) (i : Z) :
  getitem l i <> OutOfFuel.
Proof.
  unfold getitem. destruct (_ || _); [discriminate|].
  destruct (nth_error _ _); discriminate.
Qed.

Lemma fold_add (l : list Z) (a : Z) :
  fold_left Z.add l a = a + fold_left Z.add l 0.
Proof.
  revert a. induction l as [|y l IH]; intros a; cbn [fold_left]; [lia|].
  rewrite (IH (a + y)), (IH (0 + y)). lia.
Qed.

Lemma sum_cons (x : Z) (l : list Z) : sum (x :: l) = x + sum l.
Proof. unfold sum. cbn [fold_left]. rewrite fold_add. lia. Qed.

Lemma sum_app (l r : list Z) : sum (l ++ r) = sum l + sum r.
Proof.
  induction l as [|x l IH]; [reflexivity|].
  cbn [app]. rewrite !sum_cons, IH. lia.
Qed.

Lemma sum_rev (l : list Z) : sum (rev l) = sum l.
Proof.
  induction l as [|x l IH]; [reflexivity|].
  cbn [rev]. rewrite sum_app, !sum_cons, IH. unfold sum at 2. cbn. lia.
Qed.


(** ** The fuel is enough *)

Section Fuel.

Variable opcodes : string -> option OpType.
Variable instructions : list Instruction.

Let len : Z := Z.of_nat (List.length instructions).

Lemma resolve_operation_not_fuel (i : Z) :
  resolve_operation opcodes instructions i <> OutOfFuel.
Proof.
  unfold resolve_operation, getattr.
  destruct (getitem instructions (i - 1)) eqn:G; simpl; try discriminate.
  - destruct (opcodes (opname a)); simpl; try discriminate.
    destruct (0 <? i - 1); simpl; try discriminate.
    destruct (getitem instructions (i - 1 - 1)) eqn:G1; simpl; try discriminate.
    + destruct (opname a0 =? "EXTENDED_ARG")%string; simpl; try discriminate.
            destruct (py_or (argval a) (argval a0)) eqn:P; simpl; try discriminate.
      unfold py_or in P. destruct (argval a), (argval a0); discriminate.
    + exfalso. exact (getitem_not_fuel _ _ G1).
  - exfalso. exact (getitem_not_fuel _ _ G).
Qed.

Lemma resolve_operation_Ok (i k : Z) (ins : Instruction) (op : Operation) :
  resolve_operation opcodes instructions i = Ok (k, ins, op) ->
  getitem instructions (i - 1) = Ok ins /\
  opcodes (opname ins) = Some (optype op) /\
  - len <= k < len /\
  (k = i - 1 \/ (k = i - 2 /\ 0 <= k)).
Proof.
  unfold resolve_operation, getattr. intros H.
  destruct (getitem instructions (i - 1)) as [a| |] eqn:G; simpl in H; try discriminate.
  pose proof (getitem_Ok _ _ _ G) as R. fold len in R.
  destruct (opcodes (opname a)) as [t|] eqn:O; simpl in H; try discriminate.
  destruct (0 <? i - 1) eqn:Pos; simpl in H.
  - destruct (getitem instructions (i - 1 - 1)) as [p| |] eqn:G1; simpl in H; try discriminate.
    destruct (opname p =? "EXTENDED_ARG")%string; simpl in H.
    + destruct (py_or (argval a) (argval p)); simpl in H; try discriminate.
      injection H as <- <- <-.
      split; [reflexivity|]. split; [unfold make_opcode; destruct (arg a); assumption|].
      split; [lia|]. right. lia.
    + injection H as <- <- <-.
      split; [reflexivity|]. split; [unfold make_opcode; destruct (arg a); assumption|].
      split; [lia|]. now left.
  - injection H as <- <- <-.
    split; [reflexivity|]. split; [unfold make_opcode; destruct (arg a); assumption|].
    split; [lia|]. now left.
Qed.

(** One unfolding of each of the three functions. *)
Lemma extract_fuel_S (fuel : nat) (i : Z) :
  extract_fuel opcodes (S fuel) instructions i =
  ('(i, instruction, opcode) <- resolve_operation opcodes instructions i ;;
   let cmd := Command_init opcode (ins_offset instruction)
                (ins_starts_line instruction)
                (ins_is_jump_target instruction) in
   if end_block opcode then
     '(i, args) <- block_loop_fuel opcodes fuel instructions i [] ;;
     Ok (i, set_arguments cmd (rev args))
   else if start_block opcode then
     Ok (i, cmd)
   else
     let stack := op_consume_count (operation cmd) in
     '(i, args) <- stack_loop_fuel opcodes fuel instructions i stack [] ;;
     Ok (i, set_arguments cmd (rev args))).
Proof. reflexivity. Qed.

Lemma block_loop_fuel_S (fuel : nat) (i : Z) (args : list Command) :
  block_loop_fuel opcodes (S fuel) instructions i args =
  ('(i, arg) <- extract_fuel opcodes fuel instructions i ;;
   if start_block (operation arg) then Ok (i, args)
   else block_loop_fuel opcodes fuel instructions i (args ++ [arg])).
Proof. reflexivity. Qed.

Lemma stack_loop_fuel_S (fuel : nat) (i stack : Z) (args : list Command) :
  stack_loop_fuel opcodes (S fuel) instructions i stack args =
  (if 0 <? stack then
     '(i, arg) <- extract_fuel opcodes fuel instructions i ;;
     stack_loop_fuel opcodes fuel instructions i
       (stack + consume_count arg - product_count arg) (args ++ [arg])
   else Ok (i, args)).
Proof. reflexivity. Qed.

(** A result obtained with some fuel is obtained with more. *)
Lemma fuel_step (fuel : nat) :
  (forall i, extract_fuel opcodes fuel instructions i <> OutOfFuel ->
     extract_fuel opcodes (S fuel) instructions i =
     extract_fuel opcodes fuel instructions i) /\
  (forall i args,
     block_loop_fuel opcodes fuel instructions i args <> OutOfFuel ->
     block_loop_fuel opcodes (S fuel) instructions i args =
     block_loop_fuel opcodes fuel instructions i args) /\
  (forall i stack args,
     stack_loop_fuel opcodes fuel instructions i stack args <> OutOfFuel ->
     stack_loop_fuel opcodes (S fuel) instructions i stack args =
     stack_loop_fuel opcodes fuel instructions i stack args).
Proof.
  induction fuel as [|fuel [IHe [IHb IHs]]].
  - repeat split; intros; simpl in *; congruence.
  - split; [|split].
    + intros i H. rewrite (extract_fuel_S (S fuel)).
      rewrite extract_fuel_S in H |- *.
      destruct (resolve_operation opcodes instructions i)
        as [[[k ins] op]| |]; cbn [bind] in *; try reflexivity.
      destruct (end_block op).
      * rewrite IHb; [reflexivity|]. eapply bind_fuel; exact H.
      * destruct (start_block op); [reflexivity|].
        rewrite IHs; [reflexivity|]. eapply bind_fuel; exact H.
    + intros i args H. rewrite (block_loop_fuel_S (S fuel)).
      rewrite block_loop_fuel_S in H |- *.
      rewrite IHe by (eapply bind_fuel; exact H).
      destruct (extract_fuel opcodes fuel instructions i)
        as [[j c]| |]; cbn [bind] in *; try reflexivity.
      destruct (start_block (operation c)); [reflexivity|].
      now apply IHb.
    + intros i stack args H. rewrite (stack_loop_fuel_S (S fuel)).
      rewrite stack_loop_fuel_S in H |- *.
      destruct (0 <? stack); [|reflexivity].
      rewrite IHe by (eapply bind_fuel; exact H).
      destruct (extract_fuel opcodes fuel instructions i)
        as [[j c]| |]; cbn [bind] in *; try reflexivity.
      now apply IHs.
Qed.

Lemma extract_fuel_mono (fuel fuel' : nat) (i : Z) :
  (fuel <= fuel')%nat ->
  extract_fuel opcodes fuel instructions i <> OutOfFuel ->
  extract_fuel opcodes fuel' instructions i =
  extract_fuel opcodes fuel instructions i.
Proof.
  induction 1 as [|m Hle IH]; [reflexivity|]. intros H.
  rewrite <- (IH H). apply fuel_step. rewrite (IH H). exact H.
Qed.

Lemma block_loop_fuel_mono (fuel fuel' : nat) (i : Z) (args : list Command) :
  (fuel <= fuel')%nat ->
  block_loop_fuel opcodes fuel instructions i args <> OutOfFuel ->
  block_loop_fuel opcodes fuel' instructions i args =
  block_loop_fuel opcodes fuel instructions i args.
Proof.
  induction 1 as [|m Hle IH]; [reflexivity|]. intros H.
  rewrite <- (IH H). apply fuel_step. rewrite (IH H). exact H.
Qed.

Lemma stack_loop_fuel_mono (fuel fuel' : nat) (i stack : Z)
    (args : list Command) :
  (fuel <= fuel')%nat ->
  stack_loop_fuel opcodes fuel instructions i stack args <> OutOfFuel ->
  stack_loop_fuel opcodes fuel' instructions i stack args =
  stack_loop_fuel opcodes fuel instructions i stack args.
Proof.
  induction 1 as [|m Hle IH]; [reflexivity|]. intros H.
  rewrite <- (IH H). apply fuel_step. rewrite (IH H). exact H.
Qed.

(** Every call returns a cursor below the one it was given, and not
    below [- len]. *)
Lemma fuel_cursor (fuel : nat) :
  (forall i j c, extract_fuel opcodes fuel instructions i = Ok (j, c) ->
     - len <= j < i) /\
  (forall i args j args',
     block_loop_fuel opcodes fuel instructions i args = Ok (j, args') ->
     - len <= j < i) /\
  (forall i stack args j args',
     stack_loop_fuel opcodes fuel instructions i stack args = Ok (j, args') ->
     j <= i /\ (- len <= i -> - len <= j)).
Proof.
  induction fuel as [|fuel [IHe [IHb IHs]]].
  - repeat split; intros; simpl in *; discriminate.
  - split; [|split].
    + intros i j c H. rewrite extract_fuel_S in H.
      apply bind_Ok in H as [[[k ins] op] [R H]]. cbn [bind] in H.
      apply resolve_operation_Ok in R as (_ & _ & Rk & Rc).
      destruct (end_block op).
      * apply bind_Ok in H as [[j' a] [L H]]. injection H as <- _.
        apply IHb in L. lia.
      * destruct (start_block op).
        -- injection H as <- _. lia.
        -- apply bind_Ok in H as [[j' a] [L H]]. injection H as <- _.
           apply IHs in L. lia.
    + intros i args j args' H. rewrite block_loop_fuel_S in H.
      apply bind_Ok in H as [[k a] [E H]]. cbn [bind] in H. apply IHe in E.
      destruct (start_block (operation a)).
      * injection H as <- _. lia.
      * apply IHb in H. lia.
    + intros i stack args j args' H. rewrite stack_loop_fuel_S in H.
      destruct (0 <? stack).
      * apply bind_Ok in H as [[k a] [E H]]. cbn [bind] in H. apply IHe in E.
        apply IHs in H. lia.
      * injection H as <- _. lia.
Qed.

Lemma room_lt (i k : Z) :
  - len <= k < i -> (room instructions k < room instructions i)%nat.
Proof. unfold room. fold len. lia. Qed.

(** With fuel twice the room of the cursor no call runs out of it. *)
Lemma fuel_enough (n : nat) :
  (forall i, (room instructions i <= n)%nat ->
     extract_fuel opcodes (2 * n + 1) instructions i <> OutOfFuel) /\
  (forall i args, (room instructions i <= n)%nat ->
     block_loop_fuel opcodes (2 * n + 2) instructions i args <> OutOfFuel) /\
  (forall i stack args, (room instructions i <= n)%nat ->
     stack_loop_fuel opcodes (2 * n + 2) instructions i stack args
       <> OutOfFuel).
Proof.
  induction n as [n IH] using (well_founded_induction lt_wf).
  assert (He : forall i, (room instructions i <= n)%nat ->
     extract_fuel opcodes (2 * n + 1) instructions i <> OutOfFuel).
  { intros i Hr. replace (2 * n + 1)%nat with (S (2 * n)) by lia.
    rewrite extract_fuel_S.
    destruct (resolve_operation opcodes instructions i)
      as [[[k ins] op]| |] eqn:R; cbn [bind]; try discriminate.
    - apply resolve_operation_Ok in R as (_ & _ & Rk & Rc). fold len in Rk.
      assert (Hk : (room instructions k < room instructions i)%nat)
        by (apply room_lt; lia).
      destruct n as [|m]; [lia|].
      destruct (IH m (Nat.lt_succ_diag_r m)) as (_ & Hb & Hs).
      replace (2 * S m)%nat with (2 * m + 2)%nat by lia.
      destruct (end_block op).
      + specialize (Hb k []).
        destruct (block_loop_fuel opcodes (2 * m + 2) instructions k [])
          as [[j a]| |]; cbn [bind]; try discriminate.
        exfalso. apply Hb; [lia | reflexivity].
      + destruct (start_block op); [discriminate|].
        specialize (Hs k (op_consume_count
          (operation (Command_init op (ins_offset ins) (ins_starts_line ins)
             (ins_is_jump_target ins)))) []).
        destruct (stack_loop_fuel opcodes (2 * m + 2) instructions k _ [])
          as [[j a]| |]; cbn [bind]; try discriminate.
        exfalso. apply Hs; [lia | reflexivity].
    - exfalso. exact (resolve_operation_not_fuel _ R). }
  split; [exact He|]. split.
  - intros i args Hr. replace (2 * n + 2)%nat with (S (2 * n + 1)) by lia.
    rewrite block_loop_fuel_S. specialize (He i Hr).
    destruct (extract_fuel opcodes (2 * n + 1) instructions i)
      as [[j c]| |] eqn:E; cbn [bind]; try discriminate; [|congruence].
    destruct (start_block (operation c)); [discriminate|].
    apply (proj1 (fuel_cursor _)) in E.
    pose proof (room_lt i j E) as Hj.
    destruct (IH (room instructions j)) as (_ & Hb & _); [lia|].
    rewrite (block_loop_fuel_mono (2 * room instructions j + 2));
      [now apply Hb | lia | now apply Hb].
  - intros i stack args Hr.
    replace (2 * n + 2)%nat with (S (2 * n + 1)) by lia.
    rewrite stack_loop_fuel_S. destruct (0 <? stack); [|discriminate].
    specialize (He i Hr).
    destruct (extract_fuel opcodes (2 * n + 1) instructions i)
      as [[j c]| |] eqn:E; cbn [bind]; try discriminate; [|congruence].
    apply (proj1 (fuel_cursor _)) in E.
    pose proof (room_lt i j E) as Hj.
    destruct (IH (room instructions j)) as (_ & _ & Hs); [lia|].
    rewrite (stack_loop_fuel_mono (2 * room instructions j + 2));
      [now apply Hs | lia | now apply Hs].
Qed.

(** More fuel than the bound changes nothing. *)
Lemma extract_fuel_enough (fuel : nat) (i : Z) :
  (2 * room instructions i + 1 <= fuel)%nat ->
  extract_fuel opcodes fuel instructions i =
  extract_command opcodes instructions i.
Proof.
  intros H. unfold extract_command. apply extract_fuel_mono; [exact H|].
  now apply fuel_enough.
Qed.

Lemma block_loop_fuel_enough (fuel : nat) (i : Z) (args : list Command) :
  (2 * room instructions i + 2 <= fuel)%nat ->
  block_loop_fuel opcodes fuel instructions i args =
  block_loop opcodes instructions i args.
Proof.
  intros H. unfold block_loop. apply block_loop_fuel_mono; [exact H|].
  now apply fuel_enough.
Qed.

Lemma stack_loop_fuel_enough (fuel : nat) (i stack : Z)
    (args : list Command) :
  (2 * room instructions i + 2 <= fuel)%nat ->
  stack_loop_fuel opcodes fuel instructions i stack args =
  stack_loop opcodes instructions i stack args.
Proof.
  intros H. unfold stack_loop. apply stack_loop_fuel_mono; [exact H|].
  now apply fuel_enough.
Qed.

(** The function is total: it returns or raises. *)
Lemma extract_command_total (i : Z) :
  extract_command opcodes instructions i <> OutOfFuel.
Proof. unfold extract_command. now apply fuel_enough. Qed.

(** The equations of the source, free of fuel. *)
Lemma extract_command_eq (i : Z) :
  extract_command opcodes instructions i =
  ('(i, instruction, opcode) <- resolve_operation opcodes instructions i ;;
   let cmd := Command_init opcode (ins_offset instruction)
                (ins_starts_line instruction)
                (ins_is_jump_target instruction) in
   if end_block opcode then
     '(i, args) <- block_loop opcodes instructions i [] ;;
     Ok (i, set_arguments cmd (rev args))
   else if start_block opcode then
     Ok (i, cmd)
   else
     let stack := op_consume_count (operation cmd) in
     '(i, args) <- stack_loop opcodes instructions i stack [] ;;
     Ok (i, set_arguments cmd (rev args))).
Proof.
  unfold extract_command.
  replace (2 * room instructions i + 1)%nat
    with (S (2 * room instructions i)) by lia.
  rewrite extract_fuel_S.
  destruct (resolve_operation opcodes instructions i)
    as [[[k ins] op]| |] eqn:R; cbn [bind]; try reflexivity.
  apply resolve_operation_Ok in R as (_ & _ & Rk & Rc). fold len in Rk.
  assert (Hk : (room instructions k < room instructions i)%nat)
    by (apply room_lt; lia).
  rewrite block_loop_fuel_enough, stack_loop_fuel_enough by lia.
  reflexivity.
Qed.

Lemma extract_command_cursor (i j : Z) (c : Command) :
  extract_command opcodes instructions i = Ok (j, c) -> - len <= j < i.
Proof. unfold extract_command. apply fuel_cursor. Qed.

Lemma block_loop_cursor (i j : Z) (args args' : list Command) :
  block_loop opcodes instructions i args = Ok (j, args') -> - len <= j < i.
Proof. unfold block_loop. apply fuel_cursor. Qed.

Lemma stack_loop_cursor (i j stack : Z) (args args' : list Command) :
  stack_loop opcodes instructions i stack args = Ok (j, args') ->
  j <= i /\ (- len <= i -> - len <= j).
Proof. unfold stack_loop. apply fuel_cursor. Qed.

Lemma block_loop_eq (i : Z) (args : list Command) :
  block_loop opcodes instructions i args =
  ('(i, arg) <- extract_command opcodes instructions i ;;
   if start_block (operation arg) then Ok (i, args)
   else block_loop opcodes instructions i (args ++ [arg])).
Proof.
  unfold block_loop at 1.
  replace (2 * room instructions i + 2)%nat
    with (S (2 * room instructions i + 1)) by lia.
  rewrite block_loop_fuel_S. fold (extract_command opcodes instructions i).
  destruct (extract_command opcodes instructions i)
    as [[j c]| |] eqn:E; cbn [bind]; try reflexivity.
  apply extract_command_cursor in E. pose proof (room_lt i j E).
  rewrite block_loop_fuel_enough by lia. reflexivity.
Qed.

Lemma stack_loop_eq (i stack : Z) (args : list Command) :
  stack_loop opcodes instructions i stack args =
  (if 0 <? stack then
     '(i, arg) <- extract_command opcodes instructions i ;;
     stack_loop opcodes instructions i
       (stack + consume_count arg - product_count arg) (args ++ [arg])
   else Ok (i, args)).
Proof.
  unfold stack_loop at 1.
  replace (2 * room instructions i + 2)%nat
    with (S (2 * room instructions i + 1)) by lia.
  rewrite stack_loop_fuel_S. fold (extract_command opcodes instructions i).
  destruct (0 <? stack); [|reflexivity].
  destruct (extract_command opcodes instructions i)
    as [[j c]| |] eqn:E; cbn [bind]; try reflexivity.
  apply extract_command_cursor in E. pose proof (room_lt i j E).
  rewrite stack_loop_fuel_enough by lia. reflexivity.
Qed.

End Fuel.

(** ** Properties of one call *)

Section Properties.

Variable opcodes : string -> option OpType.

Lemma getitem_last {A : Type} (front : list A) (x : A) :
  getitem (front ++ [x]) (0 - 1) = Ok x.
Proof.
  unfold getitem. rewrite length_app. cbn [List.length].
  replace (0 - 1 <? 0) with true by reflexivity.
  replace (0 - 1 + Z.of_nat (List.length front + 1))
    with (Z.of_nat (List.length front)) by lia.
  destruct (_ || _) eqn:Hb.
  - exfalso. apply orb_true_iff in Hb as [H|H];
      [apply Z.ltb_lt in H | apply Z.leb_le in H]; lia.
  - rewrite Nat2Z.id, nth_error_app2, Nat.sub_diag by lia. reflexivity.
Qed.

(** The instruction is not preceded by an EXTENDED_ARG. *)
Lemma resolve_plain (instructions : list Instruction) (i : Z)
    (ins : Instruction) (ot : OpType) :
  getitem instructions (i - 1) = Ok ins ->
  opcodes (opname ins) = Some ot ->
  (i - 1 <= 0 \/
   exists prev, getitem instructions (i - 2) = Ok prev /\
                (opname prev =? "EXTENDED_ARG")%string = false) ->
  resolve_operation opcodes instructions i =
  Ok (i - 1, ins, make_opcode ot ins (argval ins)).
Proof.
  intros G O H. unfold resolve_operation, getattr.
  rewrite G. cbn [bind]. rewrite O. cbn [bind].
  destruct (0 <? i - 1) eqn:P; [|reflexivity].
  destruct H as [H|[prev [G1 N]]]; [lia|].
  replace (i - 1 - 1) with (i - 2) by lia.
  rewrite G1. cbn [bind]. rewrite N. reflexivity.
Qed.

(** The instruction is preceded by an EXTENDED_ARG. *)
Lemma resolve_extended (instructions : list Instruction) (i : Z)
    (ins ext : Instruction) (ot : OpType) (lo hi : Z) :
  0 < i - 1 ->
  getitem instructions (i - 1) = Ok ins ->
  getitem instructions (i - 2) = Ok ext ->
  opname ext = "EXTENDED_ARG" ->
  opcodes (opname ins) = Some ot ->
  argval ins = VInt lo ->
  argval ext = VInt hi ->
  resolve_operation opcodes instructions i =
  Ok (i - 2, ins, make_opcode ot ins (VInt (Z.lor lo hi))).
Proof.
  intros P G G1 N O L H. unfold resolve_operation, getattr.
  rewrite G. cbn [bind]. rewrite O. cbn [bind].
  replace (0 <? i - 1) with true by (symmetry; apply Z.ltb_lt; lia).
  replace (i - 1 - 1) with (i - 2) by lia.
  rewrite G1. cbn [bind]. rewrite N. cbn [String.eqb Ascii.eqb Bool.eqb].
  rewrite L, H. reflexivity.
Qed.

(** A call whose operation needs no operand and is no block marker. *)
Lemma extract_command_leaf (instructions : list Instruction) (i k : Z)
    (ins : Instruction) (op : Operation) :
  resolve_operation opcodes instructions i = Ok (k, ins, op) ->
  end_block op = false ->
  start_block op = true \/ op_consume_count op <= 0 ->
  extract_command opcodes instructions i =
  Ok (k, Command_init op (ins_offset ins) (ins_starts_line ins)
           (ins_is_jump_target ins)).
Proof.
  intros R E H. rewrite extract_command_eq, R. cbn [bind]. rewrite E.
  destruct (start_block op) eqn:S; [reflexivity|].
  destruct H as [H|H]; [discriminate|].
  rewrite stack_loop_eq. cbn [operation Command_init].
  replace (0 <? op_consume_count op) with false
    by (symmetry; apply Z.ltb_ge; lia).
  reflexivity.
Qed.

(** *** Offsets in increasing order *)

Lemma increasing_tail (x : Z) (r : list Z) :
  increasing (x :: r) = true -> increasing r = true.
Proof.
  destruct r as [|y r]; [reflexivity|]. cbn [increasing].
  intros H. now apply andb_true_iff in H as [_ H].
Qed.

Lemma increasing_head (r : list Z) :
  forall x, increasing (x :: r) = true -> Forall (fun y => x < y) r.
Proof.
  induction r as [|y r IH]; intros x H; [constructor|].
  pose proof (increasing_tail _ _ H) as T.
  cbn [increasing] in H. apply andb_true_iff in H as [H _].
  apply Z.ltb_lt in H. constructor; [exact H|].
  eapply Forall_impl; [|exact (IH y T)]. cbn. intros z Hz. lia.
Qed.

Lemma increasing_nth (l : list Z) :
  increasing l = true ->
  forall (a b : nat) (x y : Z),
    (a < b)%nat -> nth_error l a = Some x -> nth_error l b = Some y -> x < y.
Proof.
  induction l as [|z l IH]; intros H a b x y Hab Ha Hb.
  - destruct a; discriminate.
  - destruct b as [|b]; [lia|]. cbn [nth_error] in Hb.
    destruct a as [|a].
    + injection Ha as <-. apply increasing_head in H.
      rewrite Forall_forall in H. apply H. eapply nth_error_In; eassumption.
    + cbn [nth_error] in Ha. apply increasing_tail in H.
      apply (IH H a b); [lia|assumption|assumption].
Qed.

Lemma increasing_app_one (l : list Z) (x : Z) :
  increasing l = true -> Forall (fun y => y < x) l ->
  increasing (l ++ [x]) = true.
Proof.
  induction l as [|y l IH]; intros H F; [reflexivity|].
  inversion F as [|? ? Hy F']; subst.
  pose proof (IH (increasing_tail _ _ H) F') as IH'.
  destruct l as [|z l].
  - cbn. apply Z.ltb_lt in Hy. now rewrite Hy.
  - cbn [app increasing] in *. apply andb_true_iff in H as [H _].
    now rewrite H, IH'.
Qed.

Lemma getitem_nth_error {A : Type} (l : list A) (k : Z) (x : A) :
  0 <= k -> getitem l k = Ok x -> nth_error l (Z.to_nat k) = Some x.
Proof.
  intros P. rewrite getitem_nonneg by exact P.
  destruct (nth_error l (Z.to_nat k)); [congruence|discriminate].
Qed.

Lemma sorted_getitem (instructions : list Instruction) (a b : Z)
    (x y : Instruction) :
  increasing (map ins_offset instructions) = true ->
  0 <= a < b ->
  getitem instructions a = Ok x -> getitem instructions b = Ok y ->
  ins_offset x < ins_offset y.
Proof.
  intros S Hab Ha Hb.
  apply getitem_nth_error in Ha; [|lia].
  apply getitem_nth_error in Hb; [|lia].
  apply (increasing_nth _ S (Z.to_nat a) (Z.to_nat b)); [lia| |].
  - rewrite nth_error_map, Ha. reflexivity.
  - rewrite nth_error_map, Hb. reflexivity.
Qed.

Lemma within_widen (instructions : list Instruction) (lo hi lo' hi' o : Z) :
  lo' <= lo -> hi <= hi' ->
  within instructions lo hi o -> within instructions lo' hi' o.
Proof.
  intros Hl Hh (k & ins & Hk & G & E). exists k, ins.
  split; [lia|]. now split.
Qed.

Lemma tree_offsets_root (c : Command) : In (offset c) (tree_offsets c).
Proof. destruct c. now left. Qed.

(** The command a call returns is that of the instruction before the
    cursor. *)
Lemma extract_fuel_root (instructions : list Instruction) (fuel : nat)
    (i j : Z) (c : Command) :
  extract_fuel opcodes fuel instructions i = Ok (j, c) ->
  exists ins, getitem instructions (i - 1) = Ok ins /\
              offset c = ins_offset ins.
Proof.
  destruct fuel as [|fuel]; [discriminate|]. rewrite extract_fuel_S.
  intros H. apply bind_Ok in H as [[[k ins] op] [R H]].
  cbn beta iota zeta in H.
  apply resolve_operation_Ok in R as (G & _). exists ins.
  split; [exact G|].
  destruct (end_block op).
  - apply bind_Ok in H as [[j' a] [_ H]]. now injection H as _ <-.
  - destruct (start_block op); [now injection H as _ <-|].
    apply bind_Ok in H as [[j' a] [_ H]]. now injection H as _ <-.
Qed.

Section Order.

Variable instructions : list Instruction.
Hypothesis sorted : increasing (map ins_offset instructions) = true.

Lemma gathered_nil (j i : Z) : gathered_ok instructions j i [].
Proof. repeat split. intros c []. Qed.

Lemma gathered_cons (j k i : Z) (a : Command) (new : list Command)
    (ins : Instruction) :
  0 <= j <= k -> k < i ->
  getitem instructions (i - 1) = Ok ins ->
  offset a = ins_offset ins ->
  (forall o, In o (tree_offsets a) -> within instructions k i o) ->
  ordered a = true ->
  gathered_ok instructions j k new ->
  gathered_ok instructions j i (a :: new).
Proof.
  intros Hj Hk G Ra Wa Oa (Wn & In' & On). split; [|split].
  - intros c [<-|Hc] o Ho.
    + apply (within_widen _ k i); [lia|lia|]. now apply Wa.
    + apply (within_widen _ j k); [lia|lia|]. now apply (Wn c).
  - cbn [rev]. rewrite map_app. cbn [map].
    apply increasing_app_one; [exact In'|].
    apply Forall_forall. intros y Hy.
    apply in_map_iff in Hy as (c & <- & Hc). apply In_rev in Hc.
    destruct (Wn c Hc (offset c) (tree_offsets_root c))
      as (k' & ins' & Hk' & G' & ->).
    rewrite Ra. apply (sorted_getitem instructions k' (i - 1));
      [exact sorted|lia|assumption|assumption].
  - cbn [forallb]. now rewrite Oa, On.
Qed.

Lemma finish_ordered (j k i : Z) (new : list Command) (ins : Instruction)
    (op : Operation) :
  0 <= j <= k -> k < i ->
  getitem instructions (i - 1) = Ok ins ->
  gathered_ok instructions j k new ->
  let c := set_arguments
             (Command_init op (ins_offset ins) (ins_starts_line ins)
                (ins_is_jump_target ins)) (rev new) in
  (forall o, In o (tree_offsets c) -> within instructions j i o) /\
  ordered c = true.
Proof.
  intros Hj Hk G (Wn & In' & On). cbn. split.
  - intros o [<-|Ho].
    + exists (i - 1), ins. split; [lia|]. now split.
    + apply in_flat_map in Ho as (c & Hc & Ho). apply In_rev in Hc.
      apply (within_widen _ j k); [lia|lia|]. now apply (Wn c).
  - rewrite In'. cbn [andb]. apply andb_true_iff. split.
    + apply forallb_forall. intros c Hc. apply In_rev in Hc.
      destruct (Wn c Hc (offset c) (tree_offsets_root c))
        as (k' & ins' & Hk' & G' & ->).
      apply Z.ltb_lt. apply (sorted_getitem instructions k' (i - 1));
        [exact sorted|lia|assumption|assumption].
    + apply forallb_forall. intros c Hc. apply In_rev in Hc.
      rewrite forallb_forall in On. now apply On.
Qed.

(** When the cursor a call returns is not negative, the command is made
    of the instructions between that cursor and the one it was given, and
    it is ordered at every node. *)
Lemma fuel_ordered (fuel : nat) :
  (forall i j c,
     extract_fuel opcodes fuel instructions i = Ok (j, c) -> 0 <= j ->
     (forall o, In o (tree_offsets c) -> within instructions j i o) /\
     ordered c = true) /\
  (forall i args j args',
     block_loop_fuel opcodes fuel instructions i args = Ok (j, args') ->
     0 <= j -> exists new, args' = args ++ new /\ gathered_ok instructions j i new) /\
  (forall i stack args j args',
     stack_loop_fuel opcodes fuel instructions i stack args = Ok (j, args') ->
     0 <= j -> exists new, args' = args ++ new /\ gathered_ok instructions j i new).
Proof.
  induction fuel as [|fuel [IHe [IHb IHs]]].
  - repeat split; intros; discriminate.
  - split; [|split].
    + intros i j c H Hj. rewrite extract_fuel_S in H.
      apply bind_Ok in H as [[[k ins] op] [R H]].
      cbn beta iota zeta in H.
      apply resolve_operation_Ok in R as (G & _ & Rk & Rc).
      destruct (end_block op).
      * apply bind_Ok in H as [[j' a] [L H]]. injection H as <- <-.
        pose proof (proj1 (proj2 (fuel_cursor _ _ _)) _ _ _ _ L) as Hc.
        apply IHb in L as (new & -> & Hn); [|exact Hj]. cbn [app].
        apply (finish_ordered j' k i); [lia|lia|exact G|exact Hn].
      * destruct (start_block op).
        -- injection H as <- <-.
           apply (finish_ordered k k i [] ins op); [lia|lia|exact G|].
           apply gathered_nil.
        -- apply bind_Ok in H as [[j' a] [L H]]. injection H as <- <-.
           pose proof (proj2 (proj2 (fuel_cursor _ _ _)) _ _ _ _ _ L) as Hc.
           apply IHs in L as (new & -> & Hn); [|exact Hj]. cbn [app].
           apply (finish_ordered j' k i); [lia|lia|exact G|exact Hn].
    + intros i args j args' H Hj. rewrite block_loop_fuel_S in H.
      apply bind_Ok in H as [[k a] [E H]]. cbn beta iota in H.
      pose proof (proj1 (fuel_cursor _ _ _) _ _ _ E) as Hk.
      destruct (extract_fuel_root _ _ _ _ _ E) as (ins & G & Ra).
      destruct (start_block (operation a)).
      * injection H as <- <-. exists []. rewrite app_nil_r.
        split; [reflexivity|]. apply gathered_nil.
      * pose proof (proj1 (proj2 (fuel_cursor _ _ _)) _ _ _ _ H) as Hc.
        apply IHb in H as (new & -> & Hn); [|exact Hj].
        apply IHe in E as [Wa Oa]; [|lia].
        exists (a :: new). rewrite <- app_assoc. split; [reflexivity|].
        apply (gathered_cons j k i a new ins); try assumption; lia.
    + intros i stack args j args' H Hj. rewrite stack_loop_fuel_S in H.
      destruct (0 <? stack).
      * apply bind_Ok in H as [[k a] [E H]]. cbn beta iota in H.
        pose proof (proj1 (fuel_cursor _ _ _) _ _ _ E) as Hk.
        destruct (extract_fuel_root _ _ _ _ _ E) as (ins & G & Ra).
        pose proof (proj2 (proj2 (fuel_cursor _ _ _)) _ _ _ _ _ H) as Hc.
        apply IHs in H as (new & -> & Hn); [|exact Hj].
        apply IHe in E as [Wa Oa]; [|lia].
        exists (a :: new). rewrite <- app_assoc. split; [reflexivity|].
        apply (gathered_cons j k i a new ins); try assumption; lia.
      * injection H as <- <-. exists []. rewrite app_nil_r.
        split; [reflexivity|]. apply gathered_nil.
Qed.

End Order.


(** The command of a call, from the operation resolved at its start: the
    root is that operation, the cursor is at most the index left by the
    resolution, and the arguments are made of instructions below that
    index. *)
Lemma extract_command_resolved (instructions : list Instruction)
    (i j k : Z) (cmd : Command) (ins : Instruction) (op : Operation) :
  resolve_operation opcodes instructions i = Ok (k, ins, op) ->
  extract_command opcodes instructions i = Ok (j, cmd) ->
  operation cmd = op /\ offset cmd = ins_offset ins /\ j <= k /\
  (increasing (map ins_offset instructions) = true -> 0 <= j ->
   forall o, In o (flat_map tree_offsets (arguments cmd)) ->
             within instructions j k o).
Proof.
  intros R H. unfold extract_command in H.
  replace (2 * room instructions i + 1)%nat
    with (S (2 * room instructions i)) in H by lia.
  rewrite extract_fuel_S, R in H. cbn [bind] in H.
  assert (Hflat : forall new, gathered_ok instructions j k new ->
            forall o, In o (flat_map tree_offsets (rev new)) ->
                      within instructions j k o).
  { intros new (Wn & _) o Ho.
    apply in_flat_map in Ho as (c & Hc & Ho). apply In_rev in Hc.
    now apply (Wn c). }
  destruct (end_block op).
  - apply bind_Ok in H as [[j' a] [L H]]. injection H as <- <-.
    pose proof (proj1 (proj2 (fuel_cursor _ _ _)) _ _ _ _ L) as Hc.
    repeat split; try reflexivity; try lia.
    intros S Hj.
    apply (proj1 (proj2 (fuel_ordered _ S _))) in L as (new & -> & Hn);
      [|exact Hj].
    now apply Hflat.
  - destruct (start_block op).
    + injection H as <- <-. repeat split; try reflexivity; try lia.
      intros _ _ o [].
    + apply bind_Ok in H as [[j' a] [L H]]. injection H as <- <-.
      pose proof (proj2 (proj2 (fuel_cursor _ _ _)) _ _ _ _ _ L) as Hc.
      repeat split; try reflexivity; try lia.
      intros S Hj.
      apply (proj2 (proj2 (fuel_ordered _ S _))) in L as (new & -> & Hn);
        [|exact Hj].
      now apply Hflat.
Qed.


(** *** Well-formed sequences are parsed back *)

Lemma getitem_nth {A : Type} (l : list A) (k : Z) (x : A) :
  0 <= k -> nth_error l (Z.to_nat k) = Some x -> getitem l k = Ok x.
Proof. intros P H. rewrite getitem_nonneg by exact P. now rewrite H. Qed.

Lemma clean_snoc (l : list Instruction) (x : Instruction) :
  clean (l ++ [x]) = negb (is_extended x).
Proof. unfold clean. rewrite rev_app_distr. reflexivity. Qed.

Lemma ends_plain_app (l seg : list Instruction) :
  ends_plain seg -> ends_plain (l ++ seg).
Proof.
  intros (front & ins & -> & H). exists (l ++ front), ins.
  now rewrite app_assoc.
Qed.

Lemma ends_plain_clean (pre seg : list Instruction) :
  ends_plain seg -> clean (pre ++ seg) = true.
Proof.
  intros (front & ins & -> & H). rewrite app_assoc, clean_snoc, H.
  reflexivity.
Qed.

Lemma ends_plain_length (seg : list Instruction) :
  ends_plain seg -> (0 < List.length seg)%nat.
Proof. intros (front & ins & -> & _). rewrite length_app. cbn. lia. Qed.

Lemma unit_of_ends_plain (seg : list Instruction) (ins : Instruction)
    (op : Operation) :
  unit_of opcodes seg ins op -> ends_plain seg.
Proof.
  intros [i ot E _|ext i ot lo hi _ E _ _ _].
  - now exists [], i.
  - now exists [ext], i.
Qed.

Lemma parses_ends_plain (seg : list Instruction) (c : Command) :
  parses opcodes seg c -> ends_plain seg.
Proof.
  intros [s i o U _ _|b s i o a U _ _|b s i o a U _ _ _];
    try apply ends_plain_app; eapply unit_of_ends_plain; eassumption.
Qed.

Lemma block_body_ends_plain (seg : list Instruction) (args : list Command) :
  block_body opcodes seg args -> ends_plain seg.
Proof.
  intros [s c H _|r s c a H _ _]; try apply ends_plain_app;
    eapply parses_ends_plain; eassumption.
Qed.

Lemma operands_clean (stack : Z) (pre seg : list Instruction)
    (args : list Command) :
  operands_of opcodes stack seg args ->
  clean pre = true -> clean (pre ++ seg) = true.
Proof.
  intros [s _|s r sg c a _ H _] C.
  - now rewrite app_nil_r.
  - apply ends_plain_clean, ends_plain_app.
    eapply parses_ends_plain; eassumption.
Qed.

Lemma commands_clean (instructions : list Instruction)
    (cs : list Command) :
  commands opcodes instructions cs -> clean instructions = true.
Proof.
  intros [|front seg cs' c _ H]; [reflexivity|].
  apply ends_plain_clean. eapply parses_ends_plain; eassumption.
Qed.

(** The resolution of an operation placed after a clean prefix. *)
Lemma resolve_unit (front seg suf : list Instruction) (ins : Instruction)
    (op : Operation) :
  unit_of opcodes seg ins op ->
  clean front = true ->
  resolve_operation opcodes ((front ++ seg) ++ suf)
    (Z.of_nat (List.length (front ++ seg)))
  = Ok (Z.of_nat (List.length front), ins, op).
Proof.
  intros [i ot E O|ext i ot lo hi Ee E O L H] C.
  - rewrite length_app. cbn [List.length].
    assert (Hk : Z.of_nat (List.length front)
                 = Z.of_nat (List.length front + 1) - 1) by lia.
    rewrite Hk. apply resolve_plain; [|exact O|].
    + apply getitem_nth; [lia|].
      replace (Z.to_nat (Z.of_nat (List.length front + 1) - 1))
        with (List.length front) by lia.
      rewrite <- !app_assoc, nth_error_app2, Nat.sub_diag by lia.
      reflexivity.
    + destruct (rev front) as [|p f'] eqn:Hrev.
      * left. apply (f_equal (@rev Instruction)) in Hrev.
        rewrite rev_involutive in Hrev. subst front. cbn. lia.
      * right. apply (f_equal (@rev Instruction)) in Hrev.
        rewrite rev_involutive in Hrev. cbn [rev] in Hrev. subst front.
        rewrite clean_snoc in C. apply negb_true_iff in C.
        exists p. split; [|exact C].
        apply getitem_nth; [rewrite length_app; cbn; lia|].
        rewrite length_app. cbn [List.length].
        replace (Z.to_nat (Z.of_nat (List.length (rev f') + 1 + 1) - 2))
          with (List.length (rev f')) by lia.
        rewrite <- !app_assoc, nth_error_app2, Nat.sub_diag by lia.
        reflexivity.
  - rewrite length_app. cbn [List.length].
    assert (Hk : Z.of_nat (List.length front)
                 = Z.of_nat (List.length front + 2) - 2) by lia.
    rewrite Hk. apply (resolve_extended _ _ i ext ot lo hi); try assumption.
    + lia.
    + apply getitem_nth; [lia|].
      replace (Z.to_nat (Z.of_nat (List.length front + 2) - 1))
        with (List.length front + 1)%nat by lia.
      rewrite <- !app_assoc, nth_error_app2 by lia.
      replace (List.length front + 1 - List.length front)%nat
        with 1%nat by lia.
      reflexivity.
    + apply getitem_nth; [lia|].
      replace (Z.to_nat (Z.of_nat (List.length front + 2) - 2))
        with (List.length front) by lia.
      rewrite <- !app_assoc, nth_error_app2, Nat.sub_diag by lia.
      reflexivity.
    + unfold is_extended in Ee. now apply String.eqb_eq in Ee.
Qed.

(** A call placed at the end of the instructions of a command returns that
    command and the cursor at their start; so do the two loops for what
    they pull. *)
Lemma extract_parses :
  (forall seg c, parses opcodes seg c ->
     forall pre suf, clean pre = true ->
       extract_command opcodes ((pre ++ seg) ++ suf)
         (Z.of_nat (List.length (pre ++ seg)))
       = Ok (Z.of_nat (List.length pre), c)) /\
  (forall seg args, block_body opcodes seg args ->
     forall pre suf acc, clean pre = true ->
       block_loop opcodes ((pre ++ seg) ++ suf)
         (Z.of_nat (List.length (pre ++ seg))) acc
       = Ok (Z.of_nat (List.length pre), acc ++ args)) /\
  (forall stack seg args, operands_of opcodes stack seg args ->
     forall pre suf acc, clean pre = true ->
       stack_loop opcodes ((pre ++ seg) ++ suf)
         (Z.of_nat (List.length (pre ++ seg))) stack acc
       = Ok (Z.of_nat (List.length pre), acc ++ args)).
Proof.
  apply parses_mutual.
  - intros seg ins op U E S pre suf C.
    rewrite extract_command_eq, (resolve_unit _ _ _ _ _ U C). cbn [bind].
    now rewrite E, S.
  - intros body seg ins op args U E B IH pre suf C.
    rewrite (app_assoc pre body seg).
    rewrite extract_command_eq, (resolve_unit _ _ _ _ _ U). cbn [bind].
    + rewrite E, <- (app_assoc (pre ++ body) seg suf), IH by exact C.
      reflexivity.
    + apply ends_plain_clean. eapply block_body_ends_plain; eassumption.
  - intros operands seg ins op args U E S B IH pre suf C.
    rewrite (app_assoc pre operands seg).
    rewrite extract_command_eq, (resolve_unit _ _ _ _ _ U). cbn [bind].
    + rewrite E, S, <- (app_assoc (pre ++ operands) seg suf).
      cbn [operation Command_init]. rewrite IH by exact C. reflexivity.
    + eapply operands_clean; eassumption.
  - intros seg c Hp IH S pre suf acc C.
    rewrite block_loop_eq, IH by exact C. cbn [bind].
    now rewrite S, app_nil_r.
  - intros rest seg c args Hp IH S B IHb pre suf acc C.
    rewrite (app_assoc pre rest seg).
    rewrite block_loop_eq, IH. cbn [bind].
    + rewrite S, <- (app_assoc (pre ++ rest) seg suf), IHb by exact C.
      now rewrite <- app_assoc.
    + apply ends_plain_clean. eapply block_body_ends_plain; eassumption.
  - intros stack Hs pre suf acc C.
    rewrite stack_loop_eq.
    replace (0 <? stack) with false by (symmetry; apply Z.ltb_ge; lia).
    now rewrite !app_nil_r.
  - intros stack rest seg c args Hs Hp IH O IHo pre suf acc C.
    rewrite (app_assoc pre rest seg).
    rewrite stack_loop_eq, IH. cbn [bind].
    + replace (0 <? stack) with true by (symmetry; apply Z.ltb_lt; lia).
      rewrite <- (app_assoc (pre ++ rest) seg suf), IHo by exact C.
      now rewrite <- app_assoc.
    + eapply operands_clean; eassumption.
Qed.


(** *** The driver *)

Lemma driver_fuel_total (instructions : list Instruction) (fuel : nat) :
  forall cursor collected,
    (room instructions cursor < fuel)%nat ->
    driver_fuel opcodes fuel instructions cursor collected <> OutOfFuel.
Proof.
  induction fuel as [|fuel IH]; intros cursor collected Hr; [lia|].
  cbn [driver_fuel]. destruct (cursor =? 0); [discriminate|].
  destruct (extract_command opcodes instructions cursor)
    as [[j c]| |] eqn:E; cbn [bind]; try discriminate.
  - apply IH. apply extract_command_cursor in E.
    pose proof (room_lt instructions cursor j E). lia.
  - exfalso. exact (extract_command_total _ _ _ E).
Qed.

Lemma driver_fuel_commands (instructions : list Instruction)
    (cs : list Command) :
  commands opcodes instructions cs ->
  forall suf collected fuel,
    (List.length instructions < fuel)%nat ->
    driver_fuel opcodes fuel (instructions ++ suf)
      (Z.of_nat (List.length instructions)) collected
    = Ok (0, cs ++ rev collected).
Proof.
  induction 1 as [|front seg cs c Hc IH Hp]; intros suf collected fuel Hf.
  - destruct fuel as [|fuel]; [lia|]. reflexivity.
  - destruct fuel as [|fuel]; [lia|]. cbn [driver_fuel].
    pose proof (ends_plain_length _ (parses_ends_plain _ _ Hp)) as Hl.
    rewrite length_app in Hf.
    replace (Z.of_nat (List.length (front ++ seg)) =? 0) with false
      by (symmetry; apply Z.eqb_neq; rewrite length_app; lia).
    rewrite (proj1 extract_parses seg c Hp front suf)
      by (eapply commands_clean; eassumption).
    cbn [bind]. rewrite <- app_assoc, IH by lia.
    rewrite rev_app_distr, <- app_assoc. reflexivity.
Qed.

(** *** An exception goes through every enclosing call *)

Lemma raise_propagates (instructions : list Instruction) (e : exn) :
  (forall i i', reaches opcodes instructions i i' ->
     extract_command opcodes instructions i' = Raise e ->
     extract_command opcodes instructions i = Raise e) /\
  (forall k i', block_reaches opcodes instructions k i' ->
     extract_command opcodes instructions i' = Raise e ->
     forall args, block_loop opcodes instructions k args = Raise e) /\
  (forall stack k i', stack_reaches opcodes instructions stack k i' ->
     extract_command opcodes instructions i' = Raise e ->
     forall args, stack_loop opcodes instructions k stack args = Raise e).
Proof.
  apply reaches_mutual.
  - intros i H. exact H.
  - intros i k i' ins op R E _ IH H.
    rewrite extract_command_eq, R. cbn [bind]. rewrite E, (IH H).
    reflexivity.
  - intros i k i' ins op R E S _ IH H.
    rewrite extract_command_eq, R. cbn [bind]. rewrite E, S.
    cbn [operation Command_init]. rewrite (IH H). reflexivity.
  - intros k i' _ IH H args. rewrite block_loop_eq, (IH H). reflexivity.
  - intros k k1 i' a Ea S _ IH H args.
    rewrite block_loop_eq, Ea. cbn [bind]. rewrite S. now apply IH.
  - intros stack k i' P _ IH H args.
    apply Z.ltb_lt in P. rewrite stack_loop_eq, P, (IH H). reflexivity.
  - intros stack k k1 i' a P Ea _ IH H args.
    apply Z.ltb_lt in P. rewrite stack_loop_eq, P, Ea. cbn [bind].
    now apply IH.
Qed.

(** The driver arrives at each cursor it calls at with fuel left. *)
Lemma driver_calls_fuel (instructions : list Instruction) (c : Z) :
  driver_calls opcodes instructions c ->
  c <> 0 /\
  exists (n : nat) (collected : list Command),
    - Z.of_nat (List.length instructions) <= c /\
    Z.of_nat n <= Z.of_nat (List.length instructions) - c /\
    forall fuel,
      driver_fuel opcodes (n + fuel) instructions
        (Z.of_nat (List.length instructions)) []
      = driver_fuel opcodes fuel instructions c collected.
Proof.
  induction 1 as [N|c c1 cmd _ [Hc (n & collected & Hl & Hn & IH)] E N].
  - split; [exact N|]. exists 0%nat, []. split; [lia|]. split; [lia|].
    reflexivity.
  - split; [exact N|]. exists (S n), (collected ++ [cmd]).
    pose proof (extract_command_cursor _ _ _ _ _ E) as Hk.
    split; [lia|]. split; [lia|]. intros fuel.
    replace (S n + fuel)%nat with (n + S fuel)%nat by lia.
    rewrite IH. cbn [driver_fuel].
    replace (c =? 0) with false by (symmetry; now apply Z.eqb_neq).
    rewrite E. reflexivity.
Qed.

Lemma driver_raises (instructions : list Instruction) (c : Z) (e : exn) :
  driver_calls opcodes instructions c ->
  extract_command opcodes instructions c = Raise e ->
  driver opcodes instructions = Raise e.
Proof.
  intros D E.
  destruct (driver_calls_fuel _ _ D) as (Hc & n & collected & Hl & Hn & H).
  unfold driver.
  set (len := Z.of_nat (List.length instructions)) in *.
  replace (room instructions len + 1)%nat
    with (n + S (room instructions len - n))%nat
    by (unfold room; fold len; lia).
  rewrite H. cbn [driver_fuel].
  replace (c =? 0) with false by (symmetry; now apply Z.eqb_neq).
  rewrite E. reflexivity.
Qed.


(** *** The claims *)

(** C5: an instruction whose opcode name has no entry in the registry makes
    [extract_command] raise (the [AttributeError] of [getattr]) as soon as
    the instruction is resolved, and nothing is returned for it: the call
    that resolves it raises; so does either loop that asks for the command
    at this cursor, whatever arguments it had gathered before; so does
    every call whose execution makes that call, at any depth, which
    therefore returns no command, partial or not; and so does the driver
    of the spec when one of its calls does. *)
Theorem unknown_opcode_raises (instructions : list Instruction) (i : Z)
    (ins : Instruction) :
  getitem instructions (i - 1) = Ok ins ->
  opcodes (opname ins) = None ->
  resolve_operation opcodes instructions i
    = Raise (AttributeError (opname ins)) /\
  extract_command opcodes instructions i
    = Raise (AttributeError (opname ins)) /\
  (forall args, block_loop opcodes instructions i args
    = Raise (AttributeError (opname ins))) /\
  (forall stack args, 0 < stack ->
     stack_loop opcodes instructions i stack args
     = Raise (AttributeError (opname ins))) /\
  (forall i0, reaches opcodes instructions i0 i ->
     extract_command opcodes instructions i0
     = Raise (AttributeError (opname ins)) /\
     forall j cmd,
       extract_command opcodes instructions i0 <> Ok (j, cmd)) /\
  (forall c, driver_calls opcodes instructions c ->
     reaches opcodes instructions c i ->
     driver opcodes instructions = Raise (AttributeError (opname ins))).
Proof.
  intros G O.
  assert (R : resolve_operation opcodes instructions i
              = Raise (AttributeError (opname ins))).
  { unfold resolve_operation, getattr. rewrite G. cbn [bind].
    rewrite O. reflexivity. }
  assert (E : extract_command opcodes instructions i
              = Raise (AttributeError (opname ins))).
  { rewrite extract_command_eq, R. reflexivity. }
  assert (U : forall i0, reaches opcodes instructions i0 i ->
              extract_command opcodes instructions i0
              = Raise (AttributeError (opname ins))).
  { intros i0 H. exact (proj1 (raise_propagates _ _) _ _ H E). }
  split; [exact R|]. split; [exact E|]. split; [|split; [|split]].
  - intros args. rewrite block_loop_eq, E. reflexivity.
  - intros stack args P. rewrite stack_loop_eq, E.
    apply Z.ltb_lt in P. rewrite P. reflexivity.
  - intros i0 H. split; [now apply U|].
    intros j cmd. rewrite (U i0 H). discriminate.
  - intros c D H. apply (driver_raises _ c); [exact D|now apply U].
Qed.

(** C9: an operation that consumes nothing and neither opens nor closes a
    block yields a leaf: the call returns, and the command it returns has
    an empty argument list. *)
Theorem zero_consumption_leaf (instructions : list Instruction) (i k : Z)
    (ins : Instruction) (op : Operation) :
  resolve_operation opcodes instructions i = Ok (k, ins, op) ->
  op_consume_count op = 0 ->
  start_block op = false ->
  end_block op = false ->
  exists cmd,
    extract_command opcodes instructions i = Ok (k, cmd) /\
    operation cmd = op /\
    offset cmd = ins_offset ins /\
    arguments cmd = [].
Proof.
  intros R C S E. eexists. split.
  - apply (extract_command_leaf _ _ _ _ _ R E). right. lia.
  - repeat split.
Qed.

(** C10: with cursor 0 on a non-empty list the index becomes -1 and the
    lookup does not fail: it reads the last instruction.  No EXTENDED_ARG
    is looked for, the operation is that of the last instruction, and when
    that operation needs no operand the call returns it as a command, with
    the cursor -1. *)
Theorem cursor_zero_reads_last (front : list Instruction)
    (last : Instruction) (ot : OpType) :
  opcodes (opname last) = Some ot ->
  let instructions := front ++ [last] in
  let op := make_opcode ot last (argval last) in
  getitem instructions (0 - 1) = Ok last /\
  resolve_operation opcodes instructions 0 = Ok (-1, last, op) /\
  (end_block op = false ->
   start_block op = true \/ op_consume_count op <= 0 ->
   let leaf := Command_init op (ins_offset last) (ins_starts_line last)
                 (ins_is_jump_target last) in
   extract_command opcodes instructions 0 = Ok (-1, leaf) /\
   forall stack args, 0 < stack ->
     stack_loop opcodes instructions 0 stack args =
     stack_loop opcodes instructions (-1)
       (stack + consume_count leaf - product_count leaf) (args ++ [leaf])).
Proof.
  intros O instructions op.
  assert (G : getitem instructions (0 - 1) = Ok last)
    by apply getitem_last.
  assert (R : resolve_operation opcodes instructions 0 = Ok (-1, last, op)).
  { apply (resolve_plain _ _ _ _ G O). left. lia. }
  repeat split; try assumption.
  - now apply extract_command_leaf.
  - intros stack args P. rewrite stack_loop_eq.
    apply Z.ltb_lt in P. rewrite P.
    rewrite (extract_command_leaf _ _ _ _ _ R) by assumption.
    reflexivity.
Qed.

(** What line 75 computes when both [argval]s are integers: the argument
    of an instruction preceded by an EXTENDED_ARG is the bitwise or of the
    two values, without any shift of the high part.  The cursor moves past
    both instructions and every command the call returns carries that
    argument. *)
Theorem extended_arg_merged (instructions : list Instruction) (i : Z)
    (ins ext : Instruction) (ot : OpType) (n lo hi : Z) :
  0 < i - 1 ->
  getitem instructions (i - 1) = Ok ins ->
  getitem instructions (i - 2) = Ok ext ->
  opname ext = "EXTENDED_ARG" ->
  opcodes (opname ins) = Some ot ->
  arg ins = Some n ->
  argval ins = VInt lo ->
  argval ext = VInt hi ->
  let op := mkOperation ot (Some (VInt (Z.lor lo hi))) in
  resolve_operation opcodes instructions i = Ok (i - 2, ins, op) /\
  (forall j cmd, extract_command opcodes instructions i = Ok (j, cmd) ->
     operation cmd = op /\ offset cmd = ins_offset ins /\ j <= i - 2) /\
  (end_block op = false ->
   start_block op = true \/ op_consume_count op <= 0 ->
   extract_command opcodes instructions i =
   Ok (i - 2, Command_init op (ins_offset ins) (ins_starts_line ins)
                (ins_is_jump_target ins))).
Proof.
  intros P G G1 N O A L H op.
  assert (R : resolve_operation opcodes instructions i = Ok (i - 2, ins, op)).
  { rewrite (resolve_extended _ _ _ _ _ _ _ P G G1 N O L H).
    unfold make_opcode. rewrite A. reflexivity. }
  split; [exact R|]. split.
  - intros j cmd E.
    destruct (extract_command_resolved _ _ _ _ _ _ _ R E)
      as (Hop & Hoff & Hj & _).
    now repeat split.
  - intros. now apply extract_command_leaf.
Qed.

(** An index outside the list raises at once. *)
Lemma extract_command_out (instructions : list Instruction) (i : Z) :
  i - 1 < - Z.of_nat (List.length instructions) \/
  Z.of_nat (List.length instructions) <= i - 1 ->
  extract_command opcodes instructions i = Raise IndexError.
Proof.
  intros H. rewrite extract_command_eq. unfold resolve_operation.
  rewrite (getitem_out _ _ H). reflexivity.
Qed.

(** C4, as the code has it: a sequence made of one instruction whose
    operation still needs operands (or closes a block) makes the call
    raise, with the [IndexError] of the lookup at index -2, after the
    instruction has been read a second time at index -1.  In general the
    error is that of the lookup alone: it is raised when the index leaves
    [-len, len), and a call that returns leaves a cursor of at least
    [-len], which may be negative. *)
Theorem underflow_index_error :
  (forall (ins : Instruction) (ot : OpType),
     opcodes (opname ins) = Some ot ->
     let op := make_opcode ot ins (argval ins) in
     end_block op = true \/
     (start_block op = false /\ 0 < op_consume_count op) ->
     extract_command opcodes [ins] 1 = Raise IndexError) /\
  (forall (instructions : list Instruction) (i : Z),
     i - 1 < - Z.of_nat (List.length instructions) \/
     Z.of_nat (List.length instructions) <= i - 1 ->
     extract_command opcodes instructions i = Raise IndexError) /\
  (forall (instructions : list Instruction) (i j : Z) (c : Command),
     extract_command opcodes instructions i = Ok (j, c) ->
     - Z.of_nat (List.length instructions) <= j < i).
Proof.
  split; [|split].
  - intros ins ot O op H.
    assert (R1 : resolve_operation opcodes [ins] 1 = Ok (0, ins, op)).
    { apply (resolve_plain [ins] 1 ins ot); [reflexivity|exact O|].
      left. lia. }
    assert (R0 : resolve_operation opcodes [ins] 0 = Ok (-1, ins, op)).
    { apply (resolve_plain [ins] 0 ins ot); [reflexivity|exact O|].
      left. lia. }
    assert (Out : extract_command opcodes [ins] (-1) = Raise IndexError).
    { apply extract_command_out. cbn. lia. }
    rewrite extract_command_eq, R1. cbn [bind].
    destruct H as [E|[S P]].
    + rewrite E, block_loop_eq, extract_command_eq, R0. cbn [bind].
      rewrite E, block_loop_eq, Out. reflexivity.
    + apply Z.ltb_lt in P.
      destruct (end_block op) eqn:E.
      * rewrite block_loop_eq, extract_command_eq, R0. cbn [bind].
        rewrite E, block_loop_eq, Out. reflexivity.
      * rewrite S, stack_loop_eq. cbn [operation Command_init].
        rewrite P, extract_command_eq, R0. cbn [bind].
        rewrite E, S, stack_loop_eq. cbn [operation Command_init].
        rewrite P, Out. reflexivity.
  - apply extract_command_out.
  - intros instructions i j c H. now apply extract_command_cursor in H.
Qed.

(** The invariant of [while stack > 0]: the loop appends the commands it
    pulls, the balance is positive before each of them and at most zero
    after the last one. *)
Lemma stack_loop_fuel_balance (instructions : list Instruction)
    (fuel : nat) :
  forall i stack args j args',
    stack_loop_fuel opcodes fuel instructions i stack args = Ok (j, args') ->
    exists new,
      args' = args ++ new /\
      stack + sum (map net new) <= 0 /\
      forall n, (n < List.length new)%nat ->
                0 < stack + sum (map net (firstn n new)).
Proof.
  induction fuel as [|fuel IH]; intros i stack args j args' H;
    [discriminate|].
  rewrite stack_loop_fuel_S in H. destruct (0 <? stack) eqn:P.
  - apply Z.ltb_lt in P.
    apply bind_Ok in H as [[k a] [_ H]]. cbn beta iota in H.
    apply IH in H as (new & -> & Hle & Hpos).
    exists (a :: new). rewrite <- app_assoc. split; [reflexivity|].
    cbn [map]. rewrite sum_cons. unfold net at 1. split; [lia|].
    intros [|n] Hn.
    + cbn. lia.
    + cbn [firstn map]. rewrite sum_cons. unfold net at 1.
      cbn [List.length] in Hn. specialize (Hpos n). lia.
  - apply Z.ltb_ge in P. injection H as _ <-.
    exists []. rewrite app_nil_r. split; [reflexivity|].
    cbn. split; [lia|]. intros n Hn. lia.
Qed.

(** C1, as the code has it: for a command built by the branch that is
    neither block branch, the balance (the consume count of the root
    operation plus, for each child, its consume count minus its product
    count) is at most zero when the loop stops, and it was positive before
    each child was pulled: the loop never stops early, but its last child
    may bring the balance below zero.  The balance is exactly zero when no
    child produces more than one value beyond what it consumes. *)
Theorem stack_balance_closure (instructions : list Instruction) (i j : Z)
    (cmd : Command) :
  extract_command opcodes instructions i = Ok (j, cmd) ->
  end_block (operation cmd) = false ->
  start_block (operation cmd) = false ->
  pending (operation cmd) (arguments cmd) <= 0 /\
  (forall n, (n < List.length (arguments cmd))%nat ->
     0 < pending (operation cmd) (firstn n (rev (arguments cmd)))) /\
  (0 <= op_consume_count (operation cmd) ->
   (forall c, In c (arguments cmd) ->
              product_count c - consume_count c <= 1) ->
   pending (operation cmd) (arguments cmd) = 0).
Proof.
  intros H E S. unfold extract_command in H.
  replace (2 * room instructions i + 1)%nat
    with (Datatypes.S (2 * room instructions i)) in H by lia.
  rewrite extract_fuel_S in H.
  apply bind_Ok in H as [[[k ins] op] [_ H]]. cbn beta iota zeta in H.
  destruct (end_block op) eqn:E'.
  { apply bind_Ok in H as [[j' a] [_ H]]. injection H as _ <-.
    cbn in E. congruence. }
  destruct (start_block op) eqn:S'.
  { injection H as _ <-. cbn in S. congruence. }
  apply bind_Ok in H as [[j' a] [L H]]. injection H as _ <-.
  apply stack_loop_fuel_balance in L as (new & -> & Hle & Hpos).
  cbn [app operation arguments set_arguments Command_init] in *.
  unfold pending. rewrite rev_involutive, length_rev.
  assert (Hsum : sum (map net (rev new)) = sum (map net new))
    by (rewrite map_rev; apply sum_rev).
  rewrite Hsum. split; [exact Hle|]. split; [exact Hpos|].
  intros C0 Hone.
  destruct (rev new) as [|lastc front] eqn:Hrev.
  - apply (f_equal (@rev Command)) in Hrev.
    rewrite rev_involutive in Hrev. subst new. cbn in *. lia.
  - apply (f_equal (@rev Command)) in Hrev.
    rewrite rev_involutive in Hrev. cbn [rev] in Hrev. subst new.
    specialize (Hpos (List.length (rev front))).
    rewrite length_app, firstn_app, firstn_all, Nat.sub_diag in Hpos.
    cbn [firstn List.length] in Hpos. rewrite app_nil_r in Hpos.
    rewrite map_app, sum_app in Hle |- *. cbn [map] in Hle |- *.
    rewrite sum_cons in Hle |- *. unfold sum at 2 in Hle.
    unfold sum at 2. cbn [fold_left] in Hle |- *.
    specialize (Hone lastc (or_introl eq_refl)). unfold net at 2 in Hle.
    unfold net at 2. specialize (Hpos ltac:(lia)). lia.
Qed.


(** C6, as the code has it: on a list whose offsets increase, a command
    returned with a cursor that is not negative (no instruction was read
    at a negative index) has arguments whose offsets increase from left to
    right and are all below the offset of the command itself, and the same
    holds at every node of the tree. *)
Theorem arguments_in_offset_order (instructions : list Instruction)
    (i j : Z) (cmd : Command) :
  increasing (map ins_offset instructions) = true ->
  extract_command opcodes instructions i = Ok (j, cmd) ->
  0 <= j ->
  increasing (map offset (arguments cmd)) = true /\
  Forall (fun a => offset a < offset cmd) (arguments cmd) /\
  ordered cmd = true.
Proof.
  intros S H Hj.
  apply (proj1 (fuel_ordered _ S _)) in H as [_ O]; [|exact Hj].
  split; [|split]; [| |exact O]; destruct cmd as [o off l b args];
    cbn [ordered] in O; cbn [arguments offset];
    apply andb_true_iff in O as [O _]; apply andb_true_iff in O as [O1 O2].
  - exact O1.
  - apply Forall_forall. intros a Ha. rewrite forallb_forall in O2.
    apply Z.ltb_lt. now apply O2.
Qed.

(** When both [argval]s are integers, an EXTENDED_ARG before an
    instruction is consumed without a command of its own.  The resolution
    of the instruction leaves the index on the EXTENDED_ARG, one position
    back and no more, whatever stands before it, and takes the argument
    from that one instruction; the cursor of every result is at or below
    that index; the root of the command is the instruction, and on a list
    whose offsets increase no node of a command returned with a cursor
    that is not negative has the offset of the EXTENDED_ARG. *)
Theorem extended_arg_consumed (instructions : list Instruction) (i : Z)
    (ins ext : Instruction) (ot : OpType) (lo hi : Z) :
  0 < i - 1 ->
  getitem instructions (i - 1) = Ok ins ->
  getitem instructions (i - 2) = Ok ext ->
  opname ext = "EXTENDED_ARG" ->
  opcodes (opname ins) = Some ot ->
  argval ins = VInt lo ->
  argval ext = VInt hi ->
  let op := make_opcode ot ins (VInt (Z.lor lo hi)) in
  resolve_operation opcodes instructions i = Ok (i - 2, ins, op) /\
  (forall j cmd, extract_command opcodes instructions i = Ok (j, cmd) ->
     operation cmd = op /\ offset cmd = ins_offset ins /\ j <= i - 2 /\
     (increasing (map ins_offset instructions) = true -> 0 <= j ->
      ~ In (ins_offset ext) (tree_offsets cmd))) /\
  (end_block op = false ->
   start_block op = true \/ op_consume_count op <= 0 ->
   extract_command opcodes instructions i =
   Ok (i - 2, Command_init op (ins_offset ins) (ins_starts_line ins)
                (ins_is_jump_target ins))).
Proof.
  intros P G G1 N O L H op.
  pose proof (resolve_extended _ _ _ _ _ _ _ P G G1 N O L H) as R.
  fold op in R. split; [exact R|]. split.
  - intros j cmd E.
    destruct (extract_command_resolved _ _ _ _ _ _ _ R E)
      as (Hop & Hoff & Hj & Hw).
    repeat split; try assumption.
    intros S Hj0 Hin. destruct cmd as [o off l b args].
    cbn [tree_offsets offset arguments] in *.
    destruct Hin as [Hin|Hin].
    + assert (ins_offset ext < ins_offset ins)
        by (apply (sorted_getitem instructions (i - 2) (i - 1));
            [exact S|lia|assumption|assumption]).
      lia.
    + destruct (Hw S Hj0 _ Hin) as (k & ins' & Hk & G' & E').
      assert (ins_offset ins' < ins_offset ext)
        by (apply (sorted_getitem instructions k (i - 2));
            [exact S|lia|assumption|assumption]).
      lia.
  - intros. now apply extract_command_leaf.
Qed.


(** Every call that returns leaves a cursor strictly below the one it
    was given, and the driver of the model always stops.  On a sequence of
    the grammar, the instructions of its top-level commands one after the
    other, each call consumes exactly the instructions of one command, and
    the driver started at [len(instructions)] stops with the cursor at 0
    and returns those commands in forward order. *)
Theorem driver_full_coverage :
  (forall instructions i j c,
     extract_command opcodes instructions i = Ok (j, c) -> j < i) /\
  (forall instructions, driver opcodes instructions <> OutOfFuel) /\
  (forall pre seg suf c,
     parses opcodes seg c -> clean pre = true ->
     extract_command opcodes ((pre ++ seg) ++ suf)
       (Z.of_nat (List.length (pre ++ seg)))
     = Ok (Z.of_nat (List.length pre), c)) /\
  (forall instructions cmds,
     commands opcodes instructions cmds ->
     driver opcodes instructions = Ok (0, cmds)).
Proof.
  split; [|split; [|split]].
  - intros instructions i j c H. apply extract_command_cursor in H. lia.
  - intros instructions. unfold driver. apply driver_fuel_total. lia.
  - intros pre seg suf c Hp C. now apply (proj1 extract_parses).
  - intros instructions cmds H. unfold driver.
    pose proof (driver_fuel_commands _ _ H [] []
                  (room instructions (Z.of_nat (List.length instructions)) + 1))
      as D.
    rewrite !app_nil_r in D. apply D. unfold room. lia.
Qed.

(** C2: in a run made of a block opener, two operations A and B that
    consume nothing and are no block markers, and a block closer, the call
    placed after the closer returns one command for the closer whose
    arguments are A and B in that order.  The opener is not among them,
    and the returned cursor is the index of the opener: it has been
    consumed. *)
Theorem block_absorption (pre suf : list Instruction)
    (o a b c : Instruction) (to ta tb tc : OpType) :
  clean pre = true ->
  is_extended o = false -> is_extended a = false -> is_extended b = false ->
  opcodes (opname o) = Some to -> opcodes (opname a) = Some ta ->
  opcodes (opname b) = Some tb -> opcodes (opname c) = Some tc ->
  let opo := make_opcode to o (argval o) in
  let opa := make_opcode ta a (argval a) in
  let opb := make_opcode tb b (argval b) in
  let opc := make_opcode tc c (argval c) in
  start_block opo = true -> end_block opo = false ->
  op_consume_count opa = 0 -> start_block opa = false ->
  end_block opa = false ->
  op_consume_count opb = 0 -> start_block opb = false ->
  end_block opb = false ->
  end_block opc = true ->
  extract_command opcodes (pre ++ [o; a; b; c] ++ suf)
    (Z.of_nat (List.length pre) + 4)
  = Ok (Z.of_nat (List.length pre),
        mkCommand opc (ins_offset c) (ins_starts_line c)
          (ins_is_jump_target c)
          [Command_init opa (ins_offset a) (ins_starts_line a)
             (ins_is_jump_target a);
           Command_init opb (ins_offset b) (ins_starts_line b)
             (ins_is_jump_target b)]).
Proof.
  intros C Eo Ea Eb Oo Oa Ob Oc opo opa opb opc So Fo Ca Sa Fa Cb Sb Fb Fc.
  assert (Pa : parses opcodes [a]
            (Command_init opa (ins_offset a) (ins_starts_line a)
               (ins_is_jump_target a))).
  { apply (P_plain opcodes [] [a] a opa []); try assumption.
    - now apply U_plain.
    - apply O_done. lia. }
  assert (Pb : parses opcodes [b]
            (Command_init opb (ins_offset b) (ins_starts_line b)
               (ins_is_jump_target b))).
  { apply (P_plain opcodes [] [b] b opb []); try assumption.
    - now apply U_plain.
    - apply O_done. lia. }
  assert (Po : parses opcodes [o]
            (Command_init opo (ins_offset o) (ins_starts_line o)
               (ins_is_jump_target o))).
  { apply P_open; try assumption. now apply U_plain. }
  assert (B : block_body opcodes [o; a; b]
            [Command_init opb (ins_offset b) (ins_starts_line b)
               (ins_is_jump_target b);
             Command_init opa (ins_offset a) (ins_starts_line a)
               (ins_is_jump_target a)]).
  { apply (B_more opcodes [o; a] [b]); [exact Pb|exact Sb|].
    apply (B_more opcodes [o] [a]); [exact Pa|exact Sa|].
    apply (B_start opcodes [o] _ Po). exact So. }
  pose proof (proj1 (proj2 extract_parses) _ _ B pre ([c] ++ suf) [] C) as L.
  rewrite length_app in L. cbn [List.length] in L.
  replace (pre ++ [o; a; b; c] ++ suf)
    with ((pre ++ [o; a; b]) ++ [c] ++ suf)
    by (now rewrite <- app_assoc).
  assert (R : resolve_operation opcodes ((pre ++ [o; a; b]) ++ [c] ++ suf)
                (Z.of_nat (List.length pre) + 4)
              = Ok (Z.of_nat (List.length pre) + 4 - 1, c, opc)).
  { apply resolve_plain; [|exact Oc|].
    - apply getitem_nth; [lia|].
      replace (Z.to_nat (Z.of_nat (List.length pre) + 4 - 1))
        with (List.length (pre ++ [o; a; b]))
        by (rewrite length_app; cbn; lia).
      now rewrite nth_error_app2, Nat.sub_diag by lia.
    - right. exists b. split; [|exact Eb].
      apply getitem_nth; [lia|].
      replace (Z.to_nat (Z.of_nat (List.length pre) + 4 - 2))
        with (List.length (pre ++ [o; a]))
        by (rewrite length_app; cbn; lia).
      replace ((pre ++ [o; a; b]) ++ [c] ++ suf)
        with ((pre ++ [o; a]) ++ b :: c :: suf)
        by (now rewrite <- !app_assoc).
      now rewrite nth_error_app2, Nat.sub_diag by lia. }
  rewrite extract_command_eq, R. cbn [bind]. rewrite Fc.
  replace (Z.of_nat (List.length pre) + 4 - 1)
    with (Z.of_nat (List.length pre + 3)) by lia.
  rewrite L. reflexivity.
Qed.


End Properties.

(** ** The claims on the sample registry *)

(** Each statement above at a sample input, and the inputs at which a
    claim fails as it is stated. *)

Lemma unknown_run_reaches : reaches sample_opcodes unknown_run 4 1.
Proof.
  apply (R_stack _ _ 4 3 1 (plain "POP_TOP" 5)
           (mkOperation (fixed 1 0 false false) None));
    [reflexivity|reflexivity|reflexivity|].
  apply SR_call; [reflexivity|].
  apply (R_stack _ _ 3 2 1 (plain "BINARY_ADD" 4)
           (mkOperation (fixed 2 1 false false) None));
    [reflexivity|reflexivity|reflexivity|].
  apply (SR_next _ _ 2 2 1 1 (load 1 1)); [reflexivity|reflexivity|].
  apply SR_call; [reflexivity|]. apply R_self.
Qed.

Lemma unknown_opcode_raises_witness :
  extract_command sample_opcodes unknown_run 1
  = Raise (AttributeError "YIELD_VALUE") /\
  extract_command sample_opcodes unknown_run 4
  = Raise (AttributeError "YIELD_VALUE") /\
  driver sample_opcodes unknown_run = Raise (AttributeError "YIELD_VALUE").
Proof.
  pose proof (unknown_opcode_raises sample_opcodes unknown_run 1
                (plain "YIELD_VALUE" 0) eq_refl eq_refl)
    as (_ & E & _ & _ & U & D).
  split; [exact E|]. split.
  - exact (proj1 (U 4 unknown_run_reaches)).
  - apply (D 4); [|exact unknown_run_reaches].
    apply (D_first sample_opcodes unknown_run). discriminate.
Defined.

Lemma zero_consumption_leaf_witness :
  exists cmd,
    extract_command sample_opcodes add_run 1 = Ok (0, cmd) /\
    operation cmd
      = mkOperation (fixed 0 1 false false) (Some (VInt 1)) /\
    offset cmd = 0 /\
    arguments cmd = [].
Proof.
  apply (zero_consumption_leaf sample_opcodes add_run 1 0
           (with_arg "LOAD_CONST" 1 0)); reflexivity.
Defined.

Lemma cursor_zero_reads_last_witness :
  getitem underflow_run (0 - 1) = Ok (with_arg "LOAD_CONST" 2 4) /\
  extract_command sample_opcodes underflow_run 0 =
  Ok (-1, Command_init
            (mkOperation (fixed 0 1 false false) (Some (VInt 2))) 4 None false).
Proof.
  pose proof (cursor_zero_reads_last sample_opcodes
    [plain "BINARY_ADD" 0; with_arg "LOAD_CONST" 1 1]
    (with_arg "LOAD_CONST" 2 4) (fixed 0 1 false false) eq_refl)
    as (G & _ & H).
  split; [exact G|].
  apply H; [reflexivity|]. right. cbn. lia.
Defined.

(** C3: the code does not shift the high part.  On the example of the
    claim, a high-bits instruction of value 1 before a load of value 44,
    the command carries 44 | 1 = 45, not (1 << 8) | 44 = 300, and no value
    (1 << shift) | 44 with a shifted high part. *)
Lemma extended_arg_not_shifted :
  exists cmd,
    extract_command sample_opcodes extended_run 2 = Ok (0, cmd) /\
    argument (operation cmd) = Some (VInt 45) /\
    argument (operation cmd) <> Some (VInt 300) /\
    forall shift, 0 < shift ->
      argument (operation cmd)
        <> Some (VInt (Z.lor (Z.shiftl 1 shift) 44)).
Proof.
  eexists. split; [vm_compute; reflexivity|].
  cbn [operation argument]. split; [reflexivity|].
  split; [discriminate|].
  intros shift P H. injection H as H.
  apply (f_equal (fun z => Z.testbit z 0)) in H.
  rewrite Z.lor_spec, Z.shiftl_spec in H by lia.
  rewrite (Z.testbit_neg_r 1 (0 - shift)) in H by lia.
  discriminate.
Qed.

Lemma extended_arg_merged_witness :
  extract_command sample_opcodes extended_run 2 =
  Ok (0, Command_init
           (mkOperation (fixed 0 1 false false) (Some (VInt (Z.lor 44 1))))
           3 None false).
Proof.
  pose proof (extended_arg_merged sample_opcodes extended_run 2
    (with_arg "LOAD_FAST" 44 3) (with_arg "EXTENDED_ARG" 1 0)
    (fixed 0 1 false false) 44 44 1
    ltac:(lia) eq_refl eq_refl eq_refl eq_refl eq_refl eq_refl eq_refl)
    as (_ & _ & H).
  apply H; [reflexivity|]. right. cbn. lia.
Defined.

(** C4 refuted as it is stated: the first instruction consumes two values
    and nothing precedes it, yet the call at cursor 1 raises nothing.  It
    returns a command whose arguments are the two instructions that follow
    it, read at the indices -1 and -2, and the cursor -2. *)
Lemma underflow_wraps_around :
  exists op cmd,
    resolve_operation sample_opcodes underflow_run 1
      = Ok (0, plain "BINARY_ADD" 0, op) /\
    op_consume_count op = 2 /\
    extract_command sample_opcodes underflow_run 1 = Ok (-2, cmd) /\
    operation cmd = op /\
    map offset (arguments cmd) = [1; 4] /\
    forall e, extract_command sample_opcodes underflow_run 1 <> Raise e.
Proof.
  do 2 eexists. split; [vm_compute; reflexivity|].
  split; [reflexivity|]. split; [vm_compute; reflexivity|].
  split; [reflexivity|]. split; [reflexivity|].
  intros e. vm_compute. discriminate.
Qed.

Lemma underflow_index_error_witness :
  extract_command sample_opcodes [plain "BINARY_ADD" 0] 1 = Raise IndexError /\
  extract_command sample_opcodes add_run (-3) = Raise IndexError /\
  - 3 <= 0 < 3.
Proof.
  pose proof (underflow_index_error sample_opcodes) as (H1 & H2 & H3).
  split; [|split].
  - apply (H1 (plain "BINARY_ADD" 0) (fixed 2 1 false false) eq_refl).
    right. split; [reflexivity|]. cbn. lia.
  - apply H2. left. cbn. lia.
  - apply (H3 add_run 3 0
      (mkCommand (mkOperation (fixed 2 1 false false) None) 6 None false
         [Command_init (mkOperation (fixed 0 1 false false) (Some (VInt 1)))
            0 None false;
          Command_init (mkOperation (fixed 0 1 false false) (Some (VInt 2)))
            3 None false])).
    vm_compute. reflexivity.
Defined.

(** C1 refuted as it is stated: the root consumes one value, its only
    child has a consume count of 1 and a product count of 3, so the sum of
    the children's consume minus product counts is -2.  The root's count
    equals neither that sum nor its opposite, and the loop stops with the
    balance -1. *)
Lemma balance_overshoot :
  exists cmd,
    extract_command sample_opcodes dup_run 3 = Ok (0, cmd) /\
    end_block (operation cmd) = false /\
    start_block (operation cmd) = false /\
    op_consume_count (operation cmd) = 1 /\
    sum (map net (arguments cmd)) = -2 /\
    op_consume_count (operation cmd) <> sum (map net (arguments cmd)) /\
    op_consume_count (operation cmd) <> - sum (map net (arguments cmd)) /\
    pending (operation cmd) (arguments cmd) = -1.
Proof.
  eexists. split; [vm_compute; reflexivity|].
  repeat split; vm_compute; discriminate.
Qed.

Lemma stack_balance_closure_witness :
  exists cmd,
    extract_command sample_opcodes add_run 3 = Ok (0, cmd) /\
    pending (operation cmd) (arguments cmd) <= 0 /\
    0 < pending (operation cmd) (firstn 1 (rev (arguments cmd))) /\
    pending (operation cmd) (arguments cmd) = 0.
Proof.
  eexists. split; [vm_compute; reflexivity|].
  match goal with
  | |- pending (operation ?c) _ <= 0 /\ _ =>
      pose proof (stack_balance_closure sample_opcodes add_run 3 0 c
                    eq_refl eq_refl eq_refl) as (H1 & H2 & H3)
  end.
  split; [exact H1|]. split; [apply H2; cbn; lia|].
  apply H3; [cbn; lia|].
  intros c [<-|[<-|[]]]; cbn; lia.
Defined.

Lemma block_absorption_witness :
  extract_command sample_opcodes block_run 4 =
  Ok (0, node (fixed 0 0 false true) 9 [load 1 3; load 2 6]).
Proof.
  exact (block_absorption sample_opcodes [] []
           (with_arg "SETUP_LOOP" 9 0) (with_arg "LOAD_CONST" 1 3)
           (with_arg "LOAD_CONST" 2 6) (plain "POP_BLOCK" 9)
           (fixed 0 0 true false) (fixed 0 1 false false)
           (fixed 0 1 false false) (fixed 0 0 false true)
           eq_refl eq_refl eq_refl eq_refl eq_refl eq_refl eq_refl eq_refl
           eq_refl eq_refl eq_refl eq_refl eq_refl eq_refl eq_refl eq_refl
           eq_refl).
Defined.

(** C6 refuted as it is stated: the binary operation at offset 3 finds one
    load before it and reads the other one, which follows it, at index -1.
    The offsets of its arguments are 4 and 0, which do not increase, and 4
    is not below 3. *)
Lemma arguments_out_of_order :
  increasing (map ins_offset wrap_run) = true /\
  exists cmd,
    extract_command sample_opcodes wrap_run 2 = Ok (-1, cmd) /\
    offset cmd = 3 /\
    map offset (arguments cmd) = [4; 0] /\
    increasing (map offset (arguments cmd)) = false /\
    ~ Forall (fun a => offset a < offset cmd) (arguments cmd).
Proof.
  split; [reflexivity|]. eexists. split; [vm_compute; reflexivity|].
  repeat split. intros F. inversion F as [|? ? H _]. cbn in H. lia.
Qed.

Lemma arguments_in_offset_order_witness :
  exists cmd,
    extract_command sample_opcodes add_run 3 = Ok (0, cmd) /\
    increasing (map offset (arguments cmd)) = true /\
    Forall (fun a => offset a < offset cmd) (arguments cmd) /\
    ordered cmd = true.
Proof.
  eexists. split; [vm_compute; reflexivity|].
  apply (arguments_in_offset_order sample_opcodes add_run 3 0);
    [reflexivity|reflexivity|lia].
Defined.

Lemma extended_arg_consumed_witness :
  resolve_operation sample_opcodes stacked_run 3
  = Ok (1, with_arg "LOAD_FAST" 44 6,
        mkOperation (fixed 0 1 false false) (Some (VInt (Z.lor 44 1)))) /\
  extract_command sample_opcodes stacked_run 3
  = Ok (1, Command_init
             (mkOperation (fixed 0 1 false false) (Some (VInt (Z.lor 44 1))))
             6 None false) /\
  ~ In 3 (tree_offsets
            (Command_init
               (mkOperation (fixed 0 1 false false)
                  (Some (VInt (Z.lor 44 1)))) 6 None false)).
Proof.
  pose proof (extended_arg_consumed sample_opcodes stacked_run 3
    (with_arg "LOAD_FAST" 44 6) (with_arg "EXTENDED_ARG" 1 3)
    (fixed 0 1 false false) 44 1
    ltac:(lia) eq_refl eq_refl eq_refl eq_refl eq_refl eq_refl)
    as (R & H & L).
  split; [exact R|].
  assert (E : extract_command sample_opcodes stacked_run 3
    = Ok (1, Command_init
               (mkOperation (fixed 0 1 false false) (Some (VInt (Z.lor 44 1))))
               6 None false)).
  { apply L; [reflexivity|]. right. cbn. lia. }
  split; [exact E|].
  destruct (H _ _ E) as (_ & _ & _ & N). apply N; [reflexivity|lia].
Defined.

Lemma load_parses (n off : Z) :
  parses sample_opcodes [with_arg "LOAD_CONST" n off] (load n off).
Proof.
  apply (P_plain sample_opcodes [] [with_arg "LOAD_CONST" n off]
           (with_arg "LOAD_CONST" n off) _ []);
    [exact (U_plain sample_opcodes (with_arg "LOAD_CONST" n off)
              (fixed 0 1 false false) eq_refl eq_refl)
    |reflexivity|reflexivity|apply O_done; cbn; lia].
Qed.

Lemma popped_load_parses :
  parses sample_opcodes [with_arg "LOAD_CONST" 1 0; plain "POP_TOP" 3]
    (node (fixed 1 0 false false) 3 [load 1 0]).
Proof.
  apply (P_plain sample_opcodes [with_arg "LOAD_CONST" 1 0]
           [plain "POP_TOP" 3] (plain "POP_TOP" 3) _ [load 1 0]);
    [exact (U_plain sample_opcodes (plain "POP_TOP" 3)
              (fixed 1 0 false false) eq_refl eq_refl)
    |reflexivity|reflexivity|].
  apply (O_more sample_opcodes _ [] [with_arg "LOAD_CONST" 1 0]);
    [cbn; lia|apply load_parses|apply O_done; cbn; lia].
Qed.

Lemma sum_parses :
  parses sample_opcodes
    [with_arg "LOAD_CONST" 1 4; with_arg "LOAD_CONST" 2 7;
     plain "BINARY_ADD" 10]
    (node (fixed 2 1 false false) 10 [load 1 4; load 2 7]).
Proof.
  apply (P_plain sample_opcodes
           [with_arg "LOAD_CONST" 1 4; with_arg "LOAD_CONST" 2 7]
           [plain "BINARY_ADD" 10] (plain "BINARY_ADD" 10) _
           [load 2 7; load 1 4]);
    [exact (U_plain sample_opcodes (plain "BINARY_ADD" 10)
              (fixed 2 1 false false) eq_refl eq_refl)
    |reflexivity|reflexivity|].
  apply (O_more sample_opcodes _ [with_arg "LOAD_CONST" 1 4]
           [with_arg "LOAD_CONST" 2 7]);
    [cbn; lia|apply load_parses|].
  apply (O_more sample_opcodes _ [] [with_arg "LOAD_CONST" 1 4]);
    [cbn; lia|apply load_parses|apply O_done; cbn; lia].
Qed.

Lemma popped_sum_parses :
  parses sample_opcodes
    [with_arg "LOAD_CONST" 1 4; with_arg "LOAD_CONST" 2 7;
     plain "BINARY_ADD" 10; plain "POP_TOP" 11]
    (node (fixed 1 0 false false) 11
       [node (fixed 2 1 false false) 10 [load 1 4; load 2 7]]).
Proof.
  apply (P_plain sample_opcodes
           [with_arg "LOAD_CONST" 1 4; with_arg "LOAD_CONST" 2 7;
            plain "BINARY_ADD" 10]
           [plain "POP_TOP" 11] (plain "POP_TOP" 11) _
           [node (fixed 2 1 false false) 10 [load 1 4; load 2 7]]);
    [exact (U_plain sample_opcodes (plain "POP_TOP" 11)
              (fixed 1 0 false false) eq_refl eq_refl)
    |reflexivity|reflexivity|].
  apply (O_more sample_opcodes _ []
           [with_arg "LOAD_CONST" 1 4; with_arg "LOAD_CONST" 2 7;
            plain "BINARY_ADD" 10]);
    [cbn; lia|apply sum_parses|apply O_done; vm_compute; discriminate].
Qed.

Lemma two_commands_well_formed :
  commands sample_opcodes two_commands
    [node (fixed 1 0 false false) 3 [load 1 0];
     node (fixed 1 0 false false) 11
       [node (fixed 2 1 false false) 10 [load 1 4; load 2 7]]].
Proof.
  apply (C_snoc sample_opcodes
           [with_arg "LOAD_CONST" 1 0; plain "POP_TOP" 3] _
           [node (fixed 1 0 false false) 3 [load 1 0]] _);
    [|apply popped_sum_parses].
  apply (C_snoc sample_opcodes [] _ [] _ (C_nil _)).
  apply popped_load_parses.
Qed.

Lemma driver_full_coverage_witness :
  extract_command sample_opcodes two_commands 6
  = Ok (2, node (fixed 1 0 false false) 11
             [node (fixed 2 1 false false) 10 [load 1 4; load 2 7]]) /\
  2 < 6 /\
  driver sample_opcodes two_commands
  = Ok (0, [node (fixed 1 0 false false) 3 [load 1 0];
            node (fixed 1 0 false false) 11
              [node (fixed 2 1 false false) 10 [load 1 4; load 2 7]]]).
Proof.
  pose proof (driver_full_coverage sample_opcodes) as (Hlt & _ & Hp & Hd).
  pose proof (Hp [with_arg "LOAD_CONST" 1 0; plain "POP_TOP" 3] _ [] _
                popped_sum_parses eq_refl) as E.
  split; [exact E|]. split; [exact (Hlt _ _ _ _ E)|].
  exact (Hd _ _ two_commands_well_formed).
Defined.

(** ** Further properties of the commands *)

(** Induction on a command, with the property for its arguments. *)
Lemma Command_tree_ind (P : Command -> Prop) :
  (forall o off l b args, Forall P args -> P (mkCommand o off l b args)) ->
  forall c, P c.
Proof.
  intros H. fix IH 1. intros [o off l b args]. apply H.
  induction args as [|a args IHa]; constructor; [apply IH|exact IHa].
Qed.

Lemma sum_flat_nodes (f : Command -> Z) (g : Command -> Z)
    (args : list Command) :
  Forall (fun c => g c = sum (map f (nodes c))) args ->
  sum (map f (flat_map nodes args)) = sum (map g args).
Proof.
  induction 1 as [|a args Ha _ IH]; [reflexivity|].
  cbn [flat_map map]. rewrite map_app, sum_app, sum_cons, IH, Ha.
  reflexivity.
Qed.

(** X1: [consume_count] is the sum of the consume counts of the operations of
    all the nodes of the command: that of the operation itself, plus those
    of all the arguments, at any depth. *)
Theorem consume_count_all_nodes (c : Command) :
  consume_count c
  = sum (map (fun n => op_consume_count (operation n)) (nodes c)).
Proof.
  induction c as [o off l b args IH] using Command_tree_ind.
  cbn [consume_count nodes map operation]. rewrite sum_cons.
  rewrite (sum_flat_nodes _ consume_count args IH). lia.
Qed.

(** X2: [product_count] is the sum of the product counts of the operations of
    all the nodes of the command. *)
Theorem product_count_all_nodes (c : Command) :
  product_count c
  = sum (map (fun n => op_product_count (operation n)) (nodes c)).
Proof.
  induction c as [o off l b args IH] using Command_tree_ind.
  cbn [product_count nodes map operation]. rewrite sum_cons.
  rewrite (sum_flat_nodes _ product_count args IH). lia.
Qed.

Lemma length_flat_map_rev {A B : Type} (f : A -> list B) (l : list A) :
  List.length (flat_map f (rev l)) = List.length (flat_map f l).
Proof.
  induction l as [|x l IH]; [reflexivity|].
  cbn [rev flat_map]. rewrite flat_map_app, !length_app, IH.
  cbn [flat_map]. rewrite app_nil_r. lia.
Qed.

(** *** What dump prints *)

Lemma flat_map_Forall_ext {A B : Type} (f g : A -> list B) (l : list A) :
  Forall (fun a => f a = g a) l -> flat_map f l = flat_map g l.
Proof.
  induction 1 as [|a l Ha _ IH]; [reflexivity|].
  cbn [flat_map]. now rewrite Ha, IH.
Qed.

Lemma map_flat_map' {A B C : Type} (f : B -> C) (g : A -> list B)
    (l : list A) :
  map f (flat_map g l) = flat_map (fun a => map f (g a)) l.
Proof.
  induction l as [|a l IH]; [reflexivity|].
  cbn [flat_map]. now rewrite map_app, IH.
Qed.

Lemma dump_with_map {A B : Type} (f : A -> B) (line : Command -> nat -> A)
    (c : Command) :
  forall depth,
    dump_with (fun n d => f (line n d)) c depth
    = map f (dump_with line c depth).
Proof.
  induction c as [o off l b args IH] using Command_tree_ind.
  intros depth. cbn [dump_with]. rewrite map_app. cbn [map]. f_equal.
  rewrite map_flat_map'. apply flat_map_Forall_ext.
  eapply Forall_impl; [|exact IH]. cbn. intros a Ha. apply Ha.
Qed.

Lemma dump_with_depth {A : Type} (f : Command -> A) (c : Command) :
  forall depth depth',
    dump_with (fun n _ => f n) c depth = dump_with (fun n _ => f n) c depth'.
Proof.
  induction c as [o off l b args IH] using Command_tree_ind.
  intros depth depth'. cbn [dump_with]. f_equal.
  apply flat_map_Forall_ext.
  eapply Forall_impl; [|exact IH]. cbn. intros a Ha. apply Ha.
Qed.

Lemma flat_map_Permutation {A B : Type} (f g : A -> list B) (l : list A) :
  Forall (fun a => Permutation (f a) (g a)) l ->
  Permutation (flat_map f l) (flat_map g l).
Proof.
  induction 1 as [|a l Ha _ IH]; [constructor|].
  cbn [flat_map]. now apply Permutation_app.
Qed.

Lemma dump_with_nodes (c : Command) :
  forall depth,
    Permutation (dump_with (fun n _ => n) c depth) (nodes c).
Proof.
  induction c as [o off l b args IH] using Command_tree_ind.
  intros depth. cbn [dump_with nodes].
  apply Permutation_sym, Permutation_cons_app. rewrite app_nil_r.
  apply Permutation_sym, flat_map_Permutation.
  eapply Forall_impl; [|exact IH]. cbn. intros a Ha. apply Ha.
Qed.

Lemma dump_with_deeper (c : Command) :
  forall depth,
    Forall (fun d => (depth <= d)%nat) (dump_with (fun _ d => d) c depth).
Proof.
  induction c as [o off l b args IH] using Command_tree_ind.
  intros depth. cbn [dump_with]. apply Forall_app. split.
  - apply Forall_flat_map. eapply Forall_impl; [|exact IH]. cbn.
    intros a Ha. eapply Forall_impl; [|exact (Ha (depth + 1)%nat)].
    cbn. intros d Hd. lia.
  - constructor; [lia|constructor].
Qed.

(** X12: [dump] prints one line for each node of the command, the line of the
    command itself last and at the depth given, the lines of the nodes
    below it before, none at a lower depth. *)
Theorem dump_one_line_per_node (str_operation : Operation -> string)
    (c : Command) (depth : nat) :
  exists visited : list (Command * nat),
    dump str_operation c depth
    = map (fun v => dump_line str_operation (fst v) (snd v)) visited /\
    Permutation (map fst visited) (nodes c) /\
    Forall (fun v => (depth <= snd v)%nat) visited /\
    exists before, visited = before ++ [(c, depth)].
Proof.
  exists (dump_with pair c depth). split; [|split; [|split]].
  - unfold dump.
    exact (dump_with_map (fun v => dump_line str_operation (fst v) (snd v))
             pair c depth).
  - rewrite <- (dump_with_map fst pair). apply dump_with_nodes.
  - apply Forall_map. rewrite <- (dump_with_map snd pair).
    apply dump_with_deeper.
  - destruct c as [o off l b args]. cbn [dump_with]. eauto.
Qed.


Section More.

Variable opcodes : string -> option OpType.

(** Every node costs the cursor at least one position. *)
Lemma fuel_size (instructions : list Instruction) (fuel : nat) :
  (forall i j c,
     extract_fuel opcodes fuel instructions i = Ok (j, c) ->
     Z.of_nat (List.length (nodes c)) <= i - j) /\
  (forall i args j args',
     block_loop_fuel opcodes fuel instructions i args = Ok (j, args') ->
     exists new, args' = args ++ new /\
       Z.of_nat (List.length (flat_map nodes new)) <= i - j) /\
  (forall i stack args j args',
     stack_loop_fuel opcodes fuel instructions i stack args = Ok (j, args') ->
     exists new, args' = args ++ new /\
       Z.of_nat (List.length (flat_map nodes new)) <= i - j).
Proof.
  induction fuel as [|fuel [IHe [IHb IHs]]].
  - repeat split; intros; discriminate.
  - split; [|split].
    + intros i j c H. rewrite extract_fuel_S in H.
      apply bind_Ok in H as [[[k ins] op] [R H]].
      cbn beta iota zeta in H.
      apply resolve_operation_Ok in R as (_ & _ & _ & Rc).
      destruct (end_block op).
      * apply bind_Ok in H as [[j' a] [L H]]. injection H as <- <-.
        apply IHb in L as (new & -> & Hn).
        cbn [app nodes set_arguments List.length].
        rewrite length_flat_map_rev. lia.
      * destruct (start_block op).
        -- injection H as <- <-. cbn. lia.
        -- apply bind_Ok in H as [[j' a] [L H]]. injection H as <- <-.
           apply IHs in L as (new & -> & Hn).
           cbn [app nodes set_arguments List.length].
           rewrite length_flat_map_rev. lia.
    + intros i args j args' H. rewrite block_loop_fuel_S in H.
      apply bind_Ok in H as [[k a] [E H]]. cbn beta iota in H.
      apply IHe in E.
      destruct (start_block (operation a)).
      * injection H as <- <-. exists []. rewrite app_nil_r.
        split; [reflexivity|]. cbn. lia.
      * apply IHb in H as (new & -> & Hn).
        exists (a :: new). rewrite <- app_assoc. split; [reflexivity|].
        cbn [flat_map]. rewrite length_app. lia.
    + intros i stack args j args' H. rewrite stack_loop_fuel_S in H.
      destruct (0 <? stack).
      * apply bind_Ok in H as [[k a] [E H]]. cbn beta iota in H.
        apply IHe in E. apply IHs in H as (new & -> & Hn).
        exists (a :: new). rewrite <- app_assoc. split; [reflexivity|].
        cbn [flat_map]. rewrite length_app. lia.
      * injection H as <- <-. exists []. rewrite app_nil_r.
        split; [reflexivity|]. cbn. lia.
Qed.

(** X3: the command a call returns has at most as many nodes as the cursor
    moved back, and so at most [i + len(instructions)] nodes: no
    instruction read gives two nodes, also when the indices wrap around. *)
Theorem nodes_bounded_by_cursor (instructions : list Instruction)
    (i j : Z) (c : Command) :
  extract_command opcodes instructions i = Ok (j, c) ->
  Z.of_nat (List.length (nodes c)) <= i - j /\
  Z.of_nat (List.length (nodes c))
    <= i + Z.of_nat (List.length instructions).
Proof.
  intros H. pose proof (extract_command_cursor _ _ _ _ _ H) as Hc.
  apply (proj1 (fuel_size _ _)) in H. lia.
Qed.

Lemma getitem_In {A : Type} (l : list A) (i : Z) (x : A) :
  getitem l i = Ok x -> In x l.
Proof.
  unfold getitem. destruct (_ || _); [discriminate|].
  destruct (nth_error l _) as [y|] eqn:H; [|discriminate].
  intros E. injection E as <-. eapply nth_error_In; eassumption.
Qed.

Lemma resolve_operation_make (instructions : list Instruction) (i k : Z)
    (ins : Instruction) (op : Operation) :
  resolve_operation opcodes instructions i = Ok (k, ins, op) ->
  exists ot v, opcodes (opname ins) = Some ot /\ op = make_opcode ot ins v.
Proof.
  unfold resolve_operation, getattr. intros H.
  destruct (getitem instructions (i - 1)) as [a| |];
    cbn [bind] in H; try discriminate.
  destruct (opcodes (opname a)) as [t|] eqn:O; cbn [bind] in H;
    try discriminate.
  apply bind_Ok in H as [[k' v] [_ H]]. injection H as _ <- <-.
  now exists t, v.
Qed.

Lemma make_opcode_built (ot : OpType) (ins : Instruction) (v : value)
    (args : list Command) :
  built_from ot ins
    (set_arguments
       (Command_init (make_opcode ot ins v) (ins_offset ins)
          (ins_starts_line ins) (ins_is_jump_target ins)) args).
Proof.
  unfold built_from, make_opcode. cbn.
  destruct (arg ins); cbn; repeat split; congruence.
Qed.

(** Every node of every command comes from one instruction of the list
    whose opcode name is registered. *)
Lemma fuel_built (instructions : list Instruction) (fuel : nat) :
  let good n :=
    exists ins ot, In ins instructions /\
      opcodes (opname ins) = Some ot /\ built_from ot ins n in
  (forall i j c,
     extract_fuel opcodes fuel instructions i = Ok (j, c) ->
     forall n, In n (nodes c) -> good n) /\
  (forall i args j args',
     block_loop_fuel opcodes fuel instructions i args = Ok (j, args') ->
     exists new, args' = args ++ new /\
       forall n, In n (flat_map nodes new) -> good n) /\
  (forall i stack args j args',
     stack_loop_fuel opcodes fuel instructions i stack args = Ok (j, args') ->
     exists new, args' = args ++ new /\
       forall n, In n (flat_map nodes new) -> good n).
Proof.
  intros good.
  assert (Hrev : forall new n,
            In n (flat_map nodes (rev new)) -> In n (flat_map nodes new)).
  { intros new n Hn. apply in_flat_map in Hn as (c & Hc & Hn).
    apply in_flat_map. exists c. split; [now apply In_rev|exact Hn]. }
  induction fuel as [|fuel [IHe [IHb IHs]]].
  - repeat split; intros; discriminate.
  - split; [|split].
    + intros i j c H n Hn. rewrite extract_fuel_S in H.
      apply bind_Ok in H as [[[k ins] op] [R H]].
      cbn beta iota zeta in H.
      destruct (resolve_operation_make _ _ _ _ _ R) as (ot & v & O & ->).
      apply resolve_operation_Ok in R as (G & _). apply getitem_In in G.
      assert (Hroot : forall args,
                good (set_arguments
                        (Command_init (make_opcode ot ins v) (ins_offset ins)
                           (ins_starts_line ins) (ins_is_jump_target ins))
                        args)).
      { intros args. exists ins, ot. split; [exact G|]. split; [exact O|].
        apply make_opcode_built. }
      destruct (end_block (make_opcode ot ins v)).
      * apply bind_Ok in H as [[j' a] [L H]]. injection H as _ <-.
        apply IHb in L as (new & -> & Hnew).
        cbn [app nodes set_arguments] in Hn. destruct Hn as [<-|Hn].
        -- apply Hroot.
        -- apply Hnew, Hrev, Hn.
      * destruct (start_block (make_opcode ot ins v)).
        -- injection H as _ <-. destruct Hn as [<-|[]]. apply (Hroot []).
        -- apply bind_Ok in H as [[j' a] [L H]]. injection H as _ <-.
           apply IHs in L as (new & -> & Hnew).
           cbn [app nodes set_arguments] in Hn. destruct Hn as [<-|Hn].
           ++ apply Hroot.
           ++ apply Hnew, Hrev, Hn.
    + intros i args j args' H. rewrite block_loop_fuel_S in H.
      apply bind_Ok in H as [[k a] [E H]]. cbn beta iota in H.
      destruct (start_block (operation a)).
      * injection H as _ <-. exists []. rewrite app_nil_r.
        split; [reflexivity|]. intros n [].
      * apply IHb in H as (new & -> & Hnew).
        exists (a :: new). rewrite <- app_assoc. split; [reflexivity|].
        intros n Hn. cbn [flat_map] in Hn. apply in_app_or in Hn as [Hn|Hn].
        -- now apply (IHe _ _ _ E).
        -- now apply Hnew.
    + intros i stack args j args' H. rewrite stack_loop_fuel_S in H.
      destruct (0 <? stack).
      * apply bind_Ok in H as [[k a] [E H]]. cbn beta iota in H.
        apply IHs in H as (new & -> & Hnew).
        exists (a :: new). rewrite <- app_assoc. split; [reflexivity|].
        intros n Hn. cbn [flat_map] in Hn. apply in_app_or in Hn as [Hn|Hn].
        -- now apply (IHe _ _ _ E).
        -- now apply Hnew.
      * injection H as _ <-. exists []. rewrite app_nil_r.
        split; [reflexivity|]. intros n [].
Qed.

(** X4: every node of a returned command, at any depth, is built from an
    instruction of the list whose opcode name has an entry in the
    registry: it carries that entry, and the offset, the line and the jump
    flag of the instruction; its operation has an argument exactly when
    the instruction has one. *)
Theorem nodes_from_instructions (instructions : list Instruction)
    (i j : Z) (c n : Command) :
  extract_command opcodes instructions i = Ok (j, c) ->
  In n (nodes c) ->
  exists ins ot,
    In ins instructions /\ opcodes (opname ins) = Some ot /\
    built_from ot ins n.
Proof. intros H. exact (proj1 (fuel_built _ _) _ _ _ H n). Qed.

(** The loop of a block closer keeps no command that opens a block. *)
Lemma block_loop_fuel_no_opener (instructions : list Instruction)
    (fuel : nat) :
  forall i args j args',
    block_loop_fuel opcodes fuel instructions i args = Ok (j, args') ->
    exists new, args' = args ++ new /\
      Forall (fun a => start_block (operation a) = false) new.
Proof.
  induction fuel as [|fuel IH]; intros i args j args' H; [discriminate|].
  rewrite block_loop_fuel_S in H.
  apply bind_Ok in H as [[k a] [_ H]]. cbn beta iota in H.
  destruct (start_block (operation a)) eqn:S.
  - injection H as _ <-. exists []. now rewrite app_nil_r.
  - apply IH in H as (new & -> & F). exists (a :: new).
    rewrite <- app_assoc. split; [reflexivity|]. now constructor.
Qed.

Lemma closer_arguments_root (instructions : list Instruction)
    (i j : Z) (c : Command) :
  extract_command opcodes instructions i = Ok (j, c) ->
  end_block (operation c) = true ->
  Forall (fun a => start_block (operation a) = false) (arguments c).
Proof.
  intros H E. unfold extract_command in H.
  replace (2 * room instructions i + 1)%nat
    with (S (2 * room instructions i)) in H by lia.
  rewrite extract_fuel_S in H.
  apply bind_Ok in H as [[[k ins] op] [_ H]]. cbn beta iota zeta in H.
  destruct (end_block op) eqn:E'.
  - apply bind_Ok in H as [[j' a] [L H]]. injection H as _ <-.
    apply block_loop_fuel_no_opener in L as (new & -> & F).
    cbn [app arguments set_arguments]. apply Forall_rev, F.
  - destruct (start_block op).
    + injection H as _ <-. cbn in E. congruence.
    + apply bind_Ok in H as [[j' a] [_ H]]. injection H as _ <-.
      cbn in E. congruence.
Qed.

Lemma sum_map_net (l : list Command) :
  sum (map net l) = sum (map consume_count l) - sum (map product_count l).
Proof.
  induction l as [|c l IH]; [reflexivity|].
  cbn [map]. rewrite !sum_cons, IH. unfold net. lia.
Qed.

Lemma self_contained_root (instructions : list Instruction)
    (i j : Z) (c : Command) :
  extract_command opcodes instructions i = Ok (j, c) ->
  end_block (operation c) = false ->
  start_block (operation c) = false ->
  consume_count c + op_product_count (operation c) <= product_count c.
Proof.
  intros H E S. unfold extract_command in H.
  replace (2 * room instructions i + 1)%nat
    with (Datatypes.S (2 * room instructions i)) in H by lia.
  rewrite extract_fuel_S in H.
  apply bind_Ok in H as [[[k ins] op] [_ H]]. cbn beta iota zeta in H.
  destruct (end_block op) eqn:E'.
  { apply bind_Ok in H as [[j' a] [_ H]]. injection H as _ <-.
    cbn in E. congruence. }
  destruct (start_block op) eqn:S'.
  { injection H as _ <-. cbn in S. congruence. }
  apply bind_Ok in H as [[j' a] [L H]]. injection H as _ <-.
  apply (stack_loop_fuel_balance opcodes) in L as (new & -> & Hle & _).
  cbn [app operation set_arguments Command_init consume_count product_count]
    in *.
  rewrite sum_map_net in Hle.
  rewrite !map_rev, !sum_rev. lia.
Qed.

(** X8: an EXTENDED_ARG before an instruction is merged with [|] whatever the
    two [argval]s are: when one of them is not an integer the call raises
    [TypeError], also when the instruction has no operand. *)
Theorem extended_arg_type_error (instructions : list Instruction) (i : Z)
    (ins ext : Instruction) (ot : OpType) :
  0 < i - 1 ->
  getitem instructions (i - 1) = Ok ins ->
  getitem instructions (i - 2) = Ok ext ->
  opname ext = "EXTENDED_ARG" ->
  opcodes (opname ins) = Some ot ->
  (forall n, argval ins <> VInt n) \/ (forall n, argval ext <> VInt n) ->
  extract_command opcodes instructions i = Raise TypeError.
Proof.
  intros P G G1 N O H. rewrite extract_command_eq.
  unfold resolve_operation, getattr. rewrite G. cbn [bind].
  rewrite O. cbn [bind].
  replace (0 <? i - 1) with true by (symmetry; apply Z.ltb_lt; lia).
  replace (i - 1 - 1) with (i - 2) by lia.
  rewrite G1. cbn [bind]. rewrite N. cbn [String.eqb Ascii.eqb Bool.eqb].
  unfold py_or.
  destruct (argval ins) as [|x|s], (argval ext) as [|y|t];
    try reflexivity.
  destruct H as [H|H]; [now elim (H x)|now elim (H y)].
Qed.


(** *** The instructions a call consumes *)

Lemma firstn_skipn_app {A : Type} (a b : nat) (l : list A) :
  firstn a l ++ firstn b (skipn a l) = firstn (a + b) l.
Proof.
  revert l. induction a as [|a IH]; intros l; [reflexivity|].
  destruct l as [|x l]; [now rewrite !firstn_nil|].
  cbn [firstn skipn Nat.add app]. now rewrite IH.
Qed.

Lemma slice_app {A : Type} (l : list A) (j k i : Z) :
  0 <= j <= k -> k <= i ->
  slice l j k ++ slice l k i = slice l j i.
Proof.
  intros Hj Hk. unfold slice.
  replace (skipn (Z.to_nat k) l)
    with (skipn (Z.to_nat k - Z.to_nat j) (skipn (Z.to_nat j) l))
    by (rewrite skipn_skipn; f_equal; lia).
  rewrite firstn_skipn_app. f_equal. lia.
Qed.

Lemma slice_empty {A : Type} (l : list A) (i : Z) : slice l i i = [].
Proof. unfold slice. now rewrite Nat.sub_diag. Qed.

Lemma skipn_nth_error {A : Type} (l : list A) (n : nat) (x : A) :
  nth_error l n = Some x -> exists r, skipn n l = x :: r.
Proof.
  revert l. induction n as [|n IH]; intros [|y l] H; try discriminate.
  - injection H as ->. now exists l.
  - now apply IH.
Qed.

Lemma slice_one {A : Type} (l : list A) (k : Z) (x : A) :
  0 <= k -> getitem l k = Ok x -> slice l k (k + 1) = [x].
Proof.
  intros P G. apply getitem_nth_error in G; [|exact P].
  destruct (skipn_nth_error _ _ _ G) as [r Hr]. unfold slice.
  rewrite Hr. replace (Z.to_nat (k + 1) - Z.to_nat k)%nat with 1%nat by lia.
  reflexivity.
Qed.

Lemma slice_at {A : Type} (l : list A) (k i : Z) (x : A) :
  0 <= k -> i = k + 1 -> getitem l k = Ok x -> slice l k i = [x].
Proof. intros P ->. now apply slice_one. Qed.

Lemma slice_length {A : Type} (l : list A) (j i : Z) :
  0 <= j <= i -> i <= Z.of_nat (List.length l) ->
  Z.of_nat (List.length (slice l j i)) = i - j.
Proof.
  intros Hj Hi. unfold slice. rewrite length_firstn, length_skipn. lia.
Qed.

Section Consumed.

Variable instructions : list Instruction.

(** EXTENDED_ARG is no operation of the registry. *)
Hypothesis no_extended : opcodes "EXTENDED_ARG" = None.

Lemma registered_not_extended (ins : Instruction) (ot : OpType) :
  opcodes (opname ins) = Some ot -> is_extended ins = false.
Proof.
  intros O. unfold is_extended.
  destruct (opname ins =? "EXTENDED_ARG")%string eqn:E; [|reflexivity].
  apply String.eqb_eq in E. rewrite E in O. congruence.
Qed.

(** The instructions read by the resolution of an operation. *)
Lemma resolve_unit_of (i k : Z) (ins : Instruction) (op : Operation) :
  resolve_operation opcodes instructions i = Ok (k, ins, op) ->
  0 <= k ->
  unit_of opcodes (slice instructions k i) ins op.
Proof.
  unfold resolve_operation, getattr. intros H Hk.
  destruct (getitem instructions (i - 1)) as [a| |] eqn:G;
    cbn [bind] in H; try discriminate.
  destruct (opcodes (opname a)) as [t|] eqn:O; cbn [bind] in H;
    try discriminate.
  pose proof (registered_not_extended _ _ O) as Na.
  destruct (0 <? i - 1) eqn:P; cbn [bind] in H.
  - apply Z.ltb_lt in P.
    destruct (getitem instructions (i - 1 - 1)) as [p| |] eqn:G1;
      cbn [bind] in H; try discriminate.
    destruct (opname p =? "EXTENDED_ARG")%string eqn:Ep; cbn [bind] in H.
    + destruct (argval a) as [|lo|s] eqn:La; cbn in H; try discriminate.
      destruct (argval p) as [|hi|s] eqn:Lp; cbn in H; try discriminate.
      injection H as <- <- <-.
      rewrite <- (slice_app _ (i - 1 - 1) (i - 1) i) by lia.
      rewrite (slice_at _ (i - 1 - 1) (i - 1) p), (slice_at _ (i - 1) i a)
        by (assumption || lia).
      now apply U_extended.
    + injection H as <- <- <-.
      rewrite (slice_at _ (i - 1) i a) by (assumption || lia).
      now apply U_plain.
  - injection H as <- <- <-.
    rewrite (slice_at _ (i - 1) i a) by (assumption || lia).
    now apply U_plain.
Qed.

(** A call that returns a cursor that is not negative has consumed the
    instructions between that cursor and the one it was given, and they
    are those of the command it returns. *)
Lemma fuel_parses (fuel : nat) :
  (forall i j c,
     extract_fuel opcodes fuel instructions i = Ok (j, c) -> 0 <= j ->
     parses opcodes (slice instructions j i) c) /\
  (forall i args j args',
     block_loop_fuel opcodes fuel instructions i args = Ok (j, args') ->
     0 <= j ->
     exists new, args' = args ++ new /\
       block_body opcodes (slice instructions j i) new) /\
  (forall i stack args j args',
     stack_loop_fuel opcodes fuel instructions i stack args = Ok (j, args') ->
     0 <= j ->
     exists new, args' = args ++ new /\
       operands_of opcodes stack (slice instructions j i) new).
Proof.
  induction fuel as [|fuel [IHe [IHb IHs]]].
  - repeat split; intros; discriminate.
  - split; [|split].
    + intros i j c H Hj. rewrite extract_fuel_S in H.
      apply bind_Ok in H as [[[k ins] op] [R H]].
      cbn beta iota zeta in H.
      pose proof (resolve_operation_Ok _ _ _ _ _ _ R) as (_ & _ & Rk & Rc).
      destruct (end_block op) eqn:E.
      * apply bind_Ok in H as [[j' a] [L H]]. injection H as <- <-.
        pose proof (proj1 (proj2 (fuel_cursor _ _ _)) _ _ _ _ L) as Hc.
        apply IHb in L as (new & -> & B); [|exact Hj]. cbn [app].
        rewrite <- (slice_app _ j' k i) by lia.
        apply P_close; [|exact E|exact B].
        apply (resolve_unit_of _ _ _ _ R). lia.
      * destruct (start_block op) eqn:S.
        -- injection H as <- <-.
           apply P_open; [|exact E|exact S].
           now apply (resolve_unit_of _ _ _ _ R).
        -- apply bind_Ok in H as [[j' a] [L H]]. injection H as <- <-.
           pose proof (proj2 (proj2 (fuel_cursor _ _ _)) _ _ _ _ _ L) as Hc.
           apply IHs in L as (new & -> & B); [|exact Hj]. cbn [app].
           rewrite <- (slice_app _ j' k i) by lia.
           apply P_plain; [|exact E|exact S|exact B].
           apply (resolve_unit_of _ _ _ _ R). lia.
    + intros i args j args' H Hj. rewrite block_loop_fuel_S in H.
      apply bind_Ok in H as [[k a] [E H]]. cbn beta iota in H.
      pose proof (proj1 (fuel_cursor _ _ _) _ _ _ E) as Hk.
      destruct (start_block (operation a)) eqn:S.
      * injection H as <- <-. exists []. rewrite app_nil_r.
        split; [reflexivity|]. apply (B_start opcodes _ a); [|exact S].
        now apply IHe.
      * pose proof (proj1 (proj2 (fuel_cursor _ _ _)) _ _ _ _ H) as Hc.
        apply IHb in H as (new & -> & B); [|exact Hj].
        exists (a :: new). rewrite <- app_assoc. split; [reflexivity|].
        rewrite <- (slice_app _ j k i) by lia.
        apply B_more; [|exact S|exact B]. apply IHe; [exact E|lia].
    + intros i stack args j args' H Hj. rewrite stack_loop_fuel_S in H.
      destruct (0 <? stack) eqn:P.
      * apply Z.ltb_lt in P.
        apply bind_Ok in H as [[k a] [E H]]. cbn beta iota in H.
        pose proof (proj1 (fuel_cursor _ _ _) _ _ _ E) as Hk.
        pose proof (proj2 (proj2 (fuel_cursor _ _ _)) _ _ _ _ _ H) as Hc.
        apply IHs in H as (new & -> & B); [|exact Hj].
        exists (a :: new). rewrite <- app_assoc. split; [reflexivity|].
        rewrite <- (slice_app _ j k i) by lia.
        apply O_more; [exact P| |exact B]. apply IHe; [exact E|lia].
      * apply Z.ltb_ge in P. injection H as <- <-. exists [].
        rewrite app_nil_r. split; [reflexivity|].
        rewrite slice_empty. now apply O_done.
Qed.

End Consumed.

(** X9: when EXTENDED_ARG is no operation of the registry, a call that returns
    without reading at a negative index has consumed exactly the
    instructions [instructions[j:i]] between the returned cursor and the
    given one, and they are those of the returned command: they end with
    its operation, preceded by the instructions of its arguments. *)
Theorem extract_command_consumes (instructions : list Instruction)
    (i j : Z) (c : Command) :
  opcodes "EXTENDED_ARG" = None ->
  extract_command opcodes instructions i = Ok (j, c) ->
  0 <= j ->
  parses opcodes (slice instructions j i) c /\
  Z.of_nat (List.length (slice instructions j i)) = i - j.
Proof.
  intros N H Hj. split.
  - exact (proj1 (fuel_parses _ N _) _ _ _ H Hj).
  - pose proof (extract_command_cursor _ _ _ _ _ H) as Hc.
    rewrite extract_command_eq in H.
    apply bind_Ok in H as [[[k ins] op] [R _]].
    apply resolve_operation_Ok in R as (G & _). apply getitem_Ok in G.
    apply slice_length; lia.
Qed.

(** X10: a command depends on the instructions it consumes only: when
    EXTENDED_ARG is no operation of the registry and the call returns
    without reading at a negative index, the same command is extracted
    from [instructions[j:i]] alone, and from those instructions placed
    after any list that does not end with an EXTENDED_ARG and before any
    other. *)
Theorem extract_command_local (instructions : list Instruction)
    (i j : Z) (c : Command) (pre suf : list Instruction) :
  opcodes "EXTENDED_ARG" = None ->
  extract_command opcodes instructions i = Ok (j, c) ->
  0 <= j ->
  clean pre = true ->
  extract_command opcodes ((pre ++ slice instructions j i) ++ suf)
    (Z.of_nat (List.length pre) + (i - j))
  = Ok (Z.of_nat (List.length pre), c).
Proof.
  intros N H Hj C.
  assert (Hl : Z.of_nat (List.length (slice instructions j i)) = i - j).
  { pose proof (extract_command_cursor _ _ _ _ _ H) as Hc.
    pose proof H as H'. rewrite extract_command_eq in H'.
    apply bind_Ok in H' as [[[k ins] op] [R _]].
    apply resolve_operation_Ok in R as (G & _). apply getitem_Ok in G.
    apply slice_length; lia. }
  pose proof (proj1 (fuel_parses _ N _) _ _ _ H Hj) as P.
  rewrite <- Hl, <- Nat2Z.inj_add, <- length_app.
  now apply (proj1 (extract_parses opcodes)).
Qed.


(** *** dump follows the order of the instructions *)

Lemma printed_offsets_eq (o : Operation) (off : Z) (l : option Z)
    (b : bool) (args : list Command) :
  printed_offsets (mkCommand o off l b args)
  = flat_map printed_offsets args ++ [off].
Proof.
  unfold printed_offsets. cbn [dump_with offset]. f_equal.
  apply flat_map_Forall_ext, Forall_forall. intros a _.
  apply dump_with_depth.
Qed.

Lemma tree_offsets_nodes (c : Command) :
  tree_offsets c = map offset (nodes c).
Proof.
  induction c as [o off l b args IH] using Command_tree_ind.
  cbn [tree_offsets nodes map offset]. f_equal.
  rewrite map_flat_map'. now apply flat_map_Forall_ext.
Qed.

Lemma printed_in_tree (c : Command) (o : Z) :
  In o (printed_offsets c) -> In o (tree_offsets c).
Proof.
  unfold printed_offsets. rewrite tree_offsets_nodes.
  rewrite (dump_with_map offset (fun n _ => n)).
  apply Permutation_in, Permutation_map, dump_with_nodes.
Qed.

Lemma increasing_app (l r : list Z) :
  increasing l = true -> increasing r = true ->
  (forall x y, In x l -> In y r -> x < y) ->
  increasing (l ++ r) = true.
Proof.
  induction l as [|x l IH]; intros Hl Hr H; [exact Hr|].
  pose proof (IH (increasing_tail _ _ Hl) Hr
                (fun a b Ha Hb => H a b (or_intror Ha) Hb)) as IH'.
  destruct l as [|z l].
  - destruct r as [|y r]; [reflexivity|]. cbn [app].
    change (((x <? y) && increasing (y :: r)) = true).
    rewrite Hr. replace (x <? y) with true; [reflexivity|].
    symmetry. apply Z.ltb_lt. apply H; now left.
  - cbn [app] in *.
    change (((x <? z) && increasing (z :: l ++ r)) = true).
    change (((x <? z) && increasing (z :: l)) = true) in Hl.
    apply andb_true_iff in Hl as [Hl _]. now rewrite Hl, IH'.
Qed.

Section Printed.

Variable instructions : list Instruction.
Hypothesis sorted : increasing (map ins_offset instructions) = true.

Lemma within_lt (j k i x y : Z) :
  0 <= j -> k <= i ->
  within instructions j k x -> within instructions k i y -> x < y.
Proof.
  intros Hj Hk (a & ia & Ha & Ga & ->) (b & ib & Hb & Gb & ->).
  apply (sorted_getitem instructions a b); [exact sorted|lia| |];
    assumption.
Qed.

Lemma gathered_printed_within (j i : Z) (new : list Command) (o : Z) :
  gathered_ok instructions j i new ->
  In o (flat_map printed_offsets (rev new)) ->
  within instructions j i o.
Proof.
  intros (Wn & _) Ho. apply in_flat_map in Ho as (c & Hc & Ho).
  apply In_rev in Hc. apply (Wn c Hc). now apply printed_in_tree.
Qed.

(** The offsets of a command, in the order [dump] prints them,
    increase. *)
Lemma fuel_printed (fuel : nat) :
  (forall i j c,
     extract_fuel opcodes fuel instructions i = Ok (j, c) -> 0 <= j ->
     increasing (printed_offsets c) = true) /\
  (forall i args j args',
     block_loop_fuel opcodes fuel instructions i args = Ok (j, args') ->
     0 <= j ->
     exists new, args' = args ++ new /\
       increasing (flat_map printed_offsets (rev new)) = true) /\
  (forall i stack args j args',
     stack_loop_fuel opcodes fuel instructions i stack args = Ok (j, args') ->
     0 <= j ->
     exists new, args' = args ++ new /\
       increasing (flat_map printed_offsets (rev new)) = true).
Proof.
  pose proof (fuel_ordered opcodes instructions sorted) as FO.
  assert (Hroot : forall i j k new ins op,
    0 <= j <= k -> k < i ->
    getitem instructions (i - 1) = Ok ins ->
    gathered_ok instructions j k new ->
    increasing (flat_map printed_offsets (rev new)) = true ->
    increasing
      (printed_offsets
         (set_arguments
            (Command_init op (ins_offset ins) (ins_starts_line ins)
               (ins_is_jump_target ins)) (rev new))) = true).
  { intros i j k new ins op Hj Hk G Hn Hi.
    unfold set_arguments, Command_init.
    cbn [operation offset starts_line is_jump_target].
    rewrite printed_offsets_eq. apply increasing_app_one; [exact Hi|].
    apply Forall_forall. intros o Ho.
    apply (within_lt j k i); [lia|lia| |].
    - now apply (gathered_printed_within j k new).
    - exists (i - 1), ins. split; [lia|]. now split. }
  assert (Hcons : forall i j k a new,
    0 <= j <= k -> k < i ->
    (forall o, In o (tree_offsets a) -> within instructions k i o) ->
    increasing (printed_offsets a) = true ->
    gathered_ok instructions j k new ->
    increasing (flat_map printed_offsets (rev new)) = true ->
    increasing (flat_map printed_offsets (rev (a :: new))) = true).
  { intros i j k a new Hj Hk Wa Ia Hn Hi.
    cbn [rev]. rewrite flat_map_app. cbn [flat_map]. rewrite app_nil_r.
    apply increasing_app; [exact Hi|exact Ia|].
    intros x y Hx Hy. apply (within_lt j k i); [lia|lia| |].
    - now apply (gathered_printed_within j k new).
    - now apply Wa, printed_in_tree. }
  induction fuel as [|fuel [IHe [IHb IHs]]].
  - repeat split; intros; discriminate.
  - split; [|split].
    + intros i j c H Hj. rewrite extract_fuel_S in H.
      apply bind_Ok in H as [[[k ins] op] [R H]].
      cbn beta iota zeta in H.
      apply resolve_operation_Ok in R as (G & _ & Rk & Rc).
      destruct (end_block op).
      * apply bind_Ok in H as [[j' a] [L H]]. injection H as <- <-.
        pose proof (proj1 (proj2 (fuel_cursor _ _ _)) _ _ _ _ L) as Hc.
        destruct (proj1 (proj2 (FO _)) _ _ _ _ L Hj) as (new' & E' & Hn).
        apply IHb in L as (new & -> & Hi); [|exact Hj].
        apply app_inv_head in E'. subst new'. cbn [app].
        apply (Hroot i j' k); try assumption; lia.
      * destruct (start_block op).
        -- injection H as <- <-. cbn. reflexivity.
        -- apply bind_Ok in H as [[j' a] [L H]]. injection H as <- <-.
           pose proof (proj2 (proj2 (fuel_cursor _ _ _)) _ _ _ _ _ L) as Hc.
           destruct (proj2 (proj2 (FO _)) _ _ _ _ _ L Hj)
             as (new' & E' & Hn).
           apply IHs in L as (new & -> & Hi); [|exact Hj].
           apply app_inv_head in E'. subst new'. cbn [app].
           apply (Hroot i j' k); try assumption; lia.
    + intros i args j args' H Hj. rewrite block_loop_fuel_S in H.
      apply bind_Ok in H as [[k a] [E H]]. cbn beta iota in H.
      pose proof (proj1 (fuel_cursor _ _ _) _ _ _ E) as Hk.
      destruct (start_block (operation a)).
      * injection H as <- <-. exists []. now rewrite app_nil_r.
      * pose proof (proj1 (proj2 (fuel_cursor _ _ _)) _ _ _ _ H) as Hc.
        destruct (proj1 (proj2 (FO _)) _ _ _ _ H Hj) as (new' & E' & Hn).
        apply IHb in H as (new & -> & Hi); [|exact Hj].
        apply app_inv_head in E'. subst new'.
        destruct (proj1 (FO _) _ _ _ E ltac:(lia)) as [Wa _].
        exists (a :: new). rewrite <- app_assoc. split; [reflexivity|].
        apply (Hcons i j k); try assumption; try lia.
        apply (IHe _ _ _ E). lia.
    + intros i stack args j args' H Hj. rewrite stack_loop_fuel_S in H.
      destruct (0 <? stack).
      * apply bind_Ok in H as [[k a] [E H]]. cbn beta iota in H.
        pose proof (proj1 (fuel_cursor _ _ _) _ _ _ E) as Hk.
        pose proof (proj2 (proj2 (fuel_cursor _ _ _)) _ _ _ _ _ H) as Hc.
        destruct (proj2 (proj2 (FO _)) _ _ _ _ _ H Hj) as (new' & E' & Hn).
        apply IHs in H as (new & -> & Hi); [|exact Hj].
        apply app_inv_head in E'. subst new'.
        destruct (proj1 (FO _) _ _ _ E ltac:(lia)) as [Wa _].
        exists (a :: new). rewrite <- app_assoc. split; [reflexivity|].
        apply (Hcons i j k); try assumption; try lia.
        apply (IHe _ _ _ E). lia.
      * injection H as <- <-. exists []. now rewrite app_nil_r.
Qed.

End Printed.

(** X13: on a list whose offsets increase, [dump] prints the nodes of a
    command returned without reading at a negative index in the order of
    the instructions: the offsets of its lines, from the first to the
    last, increase, whatever the depth it starts from. *)
Theorem dump_in_program_order (str_operation : Operation -> string)
    (instructions : list Instruction) (i j : Z) (c : Command)
    (depth : nat) :
  increasing (map ins_offset instructions) = true ->
  extract_command opcodes instructions i = Ok (j, c) ->
  0 <= j ->
  exists visited : list (Command * nat),
    dump str_operation c depth
    = map (fun v => dump_line str_operation (fst v) (snd v)) visited /\
    increasing (map (fun v => offset (fst v)) visited) = true.
Proof.
  intros S H Hj. exists (dump_with pair c depth). split.
  - unfold dump.
    exact (dump_with_map (fun v => dump_line str_operation (fst v) (snd v))
             pair c depth).
  - rewrite <- (dump_with_map (fun v => offset (fst v)) pair).
    cbn [fst]. rewrite (dump_with_depth offset c depth 0).
    exact (proj1 (fuel_printed _ S _) _ _ _ H Hj).
Qed.


(** *** Every node is a command of its own *)

Lemma extract_fuel_Ok_command (instructions : list Instruction)
    (fuel : nat) (i : Z) (r : Z * Command) :
  extract_fuel opcodes fuel instructions i = Ok r ->
  extract_command opcodes instructions i = Ok r.
Proof.
  intros H.
  destruct (Nat.le_gt_cases fuel (2 * room instructions i + 1)) as [L|L].
  - unfold extract_command. rewrite <- H.
    apply extract_fuel_mono; [exact L|]. rewrite H. discriminate.
  - rewrite <- H. symmetry. apply extract_fuel_enough. lia.
Qed.

Lemma fuel_nodes_extracted (instructions : list Instruction) (fuel : nat) :
  let returned lo hi n :=
    exists i j, lo <= j /\ i <= hi /\
      extract_command opcodes instructions i = Ok (j, n) in
  (forall i j c,
     extract_fuel opcodes fuel instructions i = Ok (j, c) ->
     forall n, In n (nodes c) -> returned j i n) /\
  (forall i args j args',
     block_loop_fuel opcodes fuel instructions i args = Ok (j, args') ->
     exists new, args' = args ++ new /\
       forall n, In n (flat_map nodes new) -> returned j i n) /\
  (forall i stack args j args',
     stack_loop_fuel opcodes fuel instructions i stack args = Ok (j, args') ->
     exists new, args' = args ++ new /\
       forall n, In n (flat_map nodes new) -> returned j i n).
Proof.
  intros returned.
  assert (Hrev : forall new n,
            In n (flat_map nodes (rev new)) -> In n (flat_map nodes new)).
  { intros new n Hn. apply in_flat_map in Hn as (c & Hc & Hn).
    apply in_flat_map. exists c. split; [now apply In_rev|exact Hn]. }
  assert (Hwide : forall lo hi lo' hi' n,
            lo' <= lo -> hi <= hi' -> returned lo hi n -> returned lo' hi' n).
  { intros lo hi lo' hi' n Hl Hh (i & j & Hj & Hi & E).
    exists i, j. split; [lia|]. split; [lia|exact E]. }
  induction fuel as [|fuel [IHe [IHb IHs]]].
  - repeat split; intros; discriminate.
  - split; [|split].
    + intros i j c H n Hn.
      pose proof (extract_fuel_Ok_command _ _ _ _ H) as Hroot.
      rewrite extract_fuel_S in H.
      apply bind_Ok in H as [[[k ins] op] [R H]].
      cbn beta iota zeta in H.
      apply resolve_operation_Ok in R as (_ & _ & _ & Rc).
      destruct (end_block op).
      * apply bind_Ok in H as [[j' a] [L H]]. injection H as <- <-.
        apply IHb in L as (new & -> & Hnew).
        cbn [app nodes set_arguments] in Hn. destruct Hn as [<-|Hn].
        -- exists i, j'. split; [lia|]. split; [lia|exact Hroot].
        -- apply (Hwide j' k); [lia|lia|]. apply Hnew, Hrev, Hn.
      * destruct (start_block op).
        -- injection H as <- <-. destruct Hn as [<-|[]].
           exists i, k. split; [lia|]. split; [lia|exact Hroot].
        -- apply bind_Ok in H as [[j' a] [L H]]. injection H as <- <-.
           apply IHs in L as (new & -> & Hnew).
           cbn [app nodes set_arguments] in Hn. destruct Hn as [<-|Hn].
           ++ exists i, j'. split; [lia|]. split; [lia|exact Hroot].
           ++ apply (Hwide j' k); [lia|lia|]. apply Hnew, Hrev, Hn.
    + intros i args j args' H. rewrite block_loop_fuel_S in H.
      apply bind_Ok in H as [[k a] [E H]]. cbn beta iota in H.
      pose proof (proj1 (fuel_cursor _ _ _) _ _ _ E) as Hk.
      destruct (start_block (operation a)).
      * injection H as _ <-. exists []. rewrite app_nil_r.
        split; [reflexivity|]. intros n [].
      * pose proof (proj1 (proj2 (fuel_cursor _ _ _)) _ _ _ _ H) as Hc.
        apply IHb in H as (new & -> & Hnew).
        exists (a :: new). rewrite <- app_assoc. split; [reflexivity|].
        intros n Hn. cbn [flat_map] in Hn. apply in_app_or in Hn as [Hn|Hn].
        -- apply (Hwide k i); [lia|lia|]. now apply (IHe _ _ _ E).
        -- apply (Hwide j k); [lia|lia|]. now apply Hnew.
    + intros i stack args j args' H. rewrite stack_loop_fuel_S in H.
      destruct (0 <? stack).
      * apply bind_Ok in H as [[k a] [E H]]. cbn beta iota in H.
        pose proof (proj1 (fuel_cursor _ _ _) _ _ _ E) as Hk.
        pose proof (proj2 (proj2 (fuel_cursor _ _ _)) _ _ _ _ _ H) as Hc.
        apply IHs in H as (new & -> & Hnew).
        exists (a :: new). rewrite <- app_assoc. split; [reflexivity|].
        intros n Hn. cbn [flat_map] in Hn. apply in_app_or in Hn as [Hn|Hn].
        -- apply (Hwide k i); [lia|lia|]. now apply (IHe _ _ _ E).
        -- apply (Hwide j k); [lia|lia|]. now apply Hnew.
      * injection H as _ <-. exists []. rewrite app_nil_r.
        split; [reflexivity|]. intros n [].
Qed.

(** X5: every node of a returned command, at any depth, is itself the command
    that a call on the same instructions returns, with its two cursors
    between the two cursors of the call: each argument is a command of its
    own. *)
Theorem nodes_are_extracted (instructions : list Instruction)
    (i j : Z) (c n : Command) :
  extract_command opcodes instructions i = Ok (j, c) ->
  In n (nodes c) ->
  exists i' j', j <= j' /\ i' <= i /\
    extract_command opcodes instructions i' = Ok (j', n).
Proof. intros H. exact (proj1 (fuel_nodes_extracted _ _) _ _ _ H n). Qed.

Lemma opener_root (instructions : list Instruction) (i j : Z)
    (c : Command) :
  extract_command opcodes instructions i = Ok (j, c) ->
  end_block (operation c) = false ->
  start_block (operation c) = true ->
  arguments c = [].
Proof.
  intros H E S. rewrite extract_command_eq in H.
  apply bind_Ok in H as [[[k ins] op] [_ H]]. cbn beta iota zeta in H.
  destruct (end_block op) eqn:E'.
  - apply bind_Ok in H as [[j' a] [_ H]]. injection H as _ <-.
    cbn in E. congruence.
  - destruct (start_block op) eqn:S'.
    + now injection H as _ <-.
    + apply bind_Ok in H as [[j' a] [_ H]]. injection H as _ <-.
      cbn in S. congruence.
Qed.

(** X6: in a returned command, at every depth: a node whose operation opens a
    block (and does not close one) has no arguments, whatever its consume
    count; no argument of a node that closes a block opens a block, the
    first one the search met ended it and was dropped. *)
Theorem block_nodes_shape (instructions : list Instruction)
    (i j : Z) (c n : Command) :
  extract_command opcodes instructions i = Ok (j, c) ->
  In n (nodes c) ->
  (end_block (operation n) = false -> start_block (operation n) = true ->
   arguments n = []) /\
  (end_block (operation n) = true ->
   Forall (fun a => start_block (operation a) = false) (arguments n)).
Proof.
  intros H Hn.
  destruct (proj1 (fuel_nodes_extracted _ _) _ _ _ H n Hn)
    as (i' & j' & _ & _ & E).
  split.
  - now apply (opener_root _ _ _ _ E).
  - now apply (closer_arguments_root _ _ _ _ E).
Qed.

(** X7: in a returned command, every node built by the branch that is neither
    block branch needs nothing from below: the node and all the nodes
    under it consume together at most what the nodes under it produce, so
    the node as a whole produces at least what its own operation
    produces. *)
Theorem command_self_contained (instructions : list Instruction)
    (i j : Z) (c n : Command) :
  extract_command opcodes instructions i = Ok (j, c) ->
  In n (nodes c) ->
  end_block (operation n) = false ->
  start_block (operation n) = false ->
  consume_count n + op_product_count (operation n) <= product_count n.
Proof.
  intros H Hn.
  destruct (proj1 (fuel_nodes_extracted _ _) _ _ _ H n Hn)
    as (i' & j' & _ & _ & E).
  now apply (self_contained_root _ _ _ _ E).
Qed.


(** *** Operations of any arity *)





End More.

(** ** The further properties on the sample registry *)

Lemma nodes_bounded_by_cursor_witness :
  Z.of_nat (List.length (nodes add_command)) <= 3 - 0 /\
  Z.of_nat (List.length (nodes add_command))
    <= 3 + Z.of_nat (List.length add_run).
Proof.
  exact (nodes_bounded_by_cursor sample_opcodes add_run 3 0 add_command
           eq_refl).
Defined.

Lemma nodes_from_instructions_witness :
  exists ins ot,
    In ins add_run /\ sample_opcodes (opname ins) = Some ot /\
    built_from ot ins (load 2 3).
Proof.
  apply (nodes_from_instructions sample_opcodes add_run 3 0 add_command
           (load 2 3) eq_refl).
  cbn. right. right. now left.
Defined.

Lemma nodes_are_extracted_witness :
  exists i' j', 0 <= j' /\ i' <= 3 /\
    extract_command sample_opcodes dup_run i'
    = Ok (j', node (fixed 1 2 false false) 3 [load 1 0]).
Proof.
  apply (nodes_are_extracted sample_opcodes dup_run 3 0 dup_command
           (node (fixed 1 2 false false) 3 [load 1 0]) eq_refl).
  cbn. right. now left.
Defined.

Lemma extended_arg_type_error_witness :
  extract_command sample_opcodes symbolic_run 2 = Raise TypeError.
Proof.
  apply (extended_arg_type_error sample_opcodes symbolic_run 2
           (mkInstruction "LOAD_CONST" (Some 65536) (VStr "spam") 3 None false)
           (with_arg "EXTENDED_ARG" 1 0) (fixed 0 1 false false)
           ltac:(lia) eq_refl eq_refl eq_refl eq_refl).
  left. intros n. discriminate.
Defined.

Lemma extract_command_consumes_witness :
  parses sample_opcodes (slice add_run 0 3) add_command /\
  Z.of_nat (List.length (slice add_run 0 3)) = 3 - 0.
Proof.
  apply (extract_command_consumes sample_opcodes add_run 3 0 add_command);
    [reflexivity|reflexivity|lia].
Defined.

Lemma extract_command_local_witness :
  extract_command sample_opcodes
    (([] ++ slice two_commands 2 6) ++ []) (0 + (6 - 2))
  = Ok (0, node (fixed 1 0 false false) 11
             [node (fixed 2 1 false false) 10 [load 1 4; load 2 7]]).
Proof.
  apply (extract_command_local sample_opcodes two_commands 6 2 _ [] []);
    [reflexivity|reflexivity|lia|reflexivity].
Defined.

Lemma dump_in_program_order_witness :
  exists visited : list (Command * nat),
    dump (fun _ => "op") add_command 0
    = map (fun v => dump_line (fun _ => "op") (fst v) (snd v)) visited /\
    increasing (map (fun v => offset (fst v)) visited) = true.
Proof.
  apply (dump_in_program_order sample_opcodes (fun _ => "op") add_run 3 0);
    [reflexivity|reflexivity|lia].
Defined.

Lemma block_nodes_shape_witness :
  Forall (fun a => start_block (operation a) = false)
    (arguments (node (fixed 0 0 false true) 9 [load 1 3; load 2 6])).
Proof.
  refine (proj2 (block_nodes_shape sample_opcodes block_run 4 0
                   (node (fixed 0 0 false true) 9 [load 1 3; load 2 6])
                   (node (fixed 0 0 false true) 9 [load 1 3; load 2 6])
                   eq_refl _) eq_refl).
  now left.
Defined.

Lemma command_self_contained_witness :
  consume_count (node (fixed 1 2 false false) 3 [load 1 0])
  + op_product_count (operation (node (fixed 1 2 false false) 3 [load 1 0]))
  <= product_count (node (fixed 1 2 false false) 3 [load 1 0]).
Proof.
  refine (command_self_contained sample_opcodes dup_run 3 0 dup_command
            (node (fixed 1 2 false false) 3 [load 1 0])
            eq_refl _ eq_refl eq_refl).
  cbn. right. now left.
Defined.



(** C8: the EXTENDED_ARG is not consumed when the instruction after it has
    a name as [argval], as a load of a local variable has: line 75 applies
    [|] to the name and the high-bits value, the call raises [TypeError]
    and returns no cursor and no command. *)
Theorem extended_arg_not_consumed :
  getitem named_run 0 = Ok (with_arg "EXTENDED_ARG" 1 0) /\
  (exists ins ot,
     getitem named_run 1 = Ok ins /\ argval ins = VStr "x" /\
     sample_opcodes (opname ins) = Some ot) /\
  extract_command sample_opcodes named_run 2 = Raise TypeError /\
  forall j cmd, extract_command sample_opcodes named_run 2 <> Ok (j, cmd).
Proof.
  split; [reflexivity|]. split.
  - do 2 eexists. repeat split; reflexivity.
  - split; [vm_compute; reflexivity|].
    intros j cmd. vm_compute. discriminate.
Qed.

(** C7: the first call of the driver, at [len(instructions)], raises on a
    statement that loads a constant behind a high-bits instruction and
    pops it: the consumer asks for its operand, the load is merged with the
    EXTENDED_ARG before it, and line 75 raises [TypeError] on the string
    constant.  No cursor is returned, so none reaches 0. *)
Theorem full_coverage_fails :
  extract_command sample_opcodes const_program
    (Z.of_nat (List.length const_program)) = Raise TypeError /\
  forall j cmd,
    extract_command sample_opcodes const_program
      (Z.of_nat (List.length const_program)) <> Ok (j, cmd).
Proof.
  split; [vm_compute; reflexivity|].
  intros j cmd. vm_compute. discriminate.
Qed.
